(** * MultiDatabaseConnectionPool (postgres/connections.py)

    A shallow embedding of the connection pool of the postgres check and the
    verification of its specification.

    Conventions.
    - Python integers are [Z].  Wall-clock instants ([datetime.datetime]) are
      [Z] microseconds; [ttl_ms] is in milliseconds and [timeout] in seconds,
      as in the source, and are scaled when compared with instants.
    - [self._conns] is a Python [dict]: keys are unique and iteration follows
      insertion order.  It is an association list, because the order decides
      which record [evict_lru] picks among equal [last_accessed] values
      ([sorted] is stable) and the order in which connections are closed.
    - Everything outside the module is the environment ([Env]): the clock,
      [time.sleep], the [connect_fn] given to the pool and the psycopg
      connection objects ([closed], [broken], [close()]).  The environment
      has a state of its own, the [World]; connection objects are handles
      into it, so that two records may share one connection.
    - A method is a state transformer over the pool and the world that
      returns normally, raises, or (for the one unbounded loop) runs out of
      fuel.  An exception does not roll the state back. *)

From Stdlib Require Import ZArith List String Bool Lia Sorted.
Import ListNotations.
Open Scope string_scope.
Open Scope list_scope.
Open Scope Z_scope.

Set Implicit Arguments.

(** ** Exceptions and results *)

Inductive exn : Type :=
| NameError (name : string)
| TypeError (msg : string)
| KeyError (key : string)
| ConnectionPoolFullError (size : Z) (timeout : Z)
| InterruptedError
| OtherError (code : nat).

Inductive result (A : Type) : Type :=
| Return (a : A)
| Raise (e : exn)
| OutOfFuel.

Arguments Return {A} a.
Arguments Raise {A} e.
Arguments OutOfFuel {A}.

(** ** Insertion-ordered dictionaries with string keys *)

Module Dict.

Definition t (V : Type) := list (string * V).

Definition keys {V} (d : t V) : list string := map fst d.

(** The well-formedness of a Python dict: no key occurs twice. *)
Definition wf {V} (d : t V) : Prop := NoDup (keys d).

Fixpoint get {V} (k : string) (d : t V) : option V :=
  match d with
  | [] => None
  | (k', v) :: d' => if String.eqb k k' then Some v else get k d'
  end.

(** [d.pop(k, None)] and [del d[k]]: the entry leaves, the others keep
    their order. *)
Fixpoint remove {V} (k : string) (d : t V) : t V :=
  match d with
  | [] => []
  | (k', v) :: d' => if String.eqb k k' then d' else (k', v) :: remove k d'
  end.

(** [d[k] = v]: an existing key keeps its position, a new key goes last. *)
Fixpoint set {V} (k : string) (v : V) (d : t V) : t V :=
  match d with
  | [] => [(k, v)]
  | (k', v') :: d' =>
      if String.eqb k k' then (k, v) :: d' else (k', v') :: set k v d'
  end.

End Dict.

(** ** [sorted(items, key=...)]: a stable sort on an integer key *)

Section Sorted.
Variable A : Type.
Variable key : A -> Z.

Fixpoint insert_sorted (x : A) (l : list A) : list A :=
  match l with
  | [] => [x]
  | y :: l' => if key x <=? key y then x :: l else y :: insert_sorted x l'
  end.

(** Elements are inserted from the right, each before the first element
    whose key is not smaller: equal keys keep their original order. *)
Definition sorted (l : list A) : list A := fold_right insert_sorted [] l.

End Sorted.

(** ** Data model *)

Definition Thread := nat.

Record ConnectionInfo (Conn : Type) : Type := mkConnectionInfo {
  connection : Conn;
  deadline : Z;
  active : bool;
  last_accessed : Z;
  thread : Thread;
  persistent : bool
}.

Definition missing_thread : exn :=
  TypeError "__init__() missing 1 required positional argument: 'thread'".

(** [ConnectionInfo.__init__] has six required parameters.  A call binds
    them by keyword; [thread_arg] is [None] when the call supplies no
    [thread], which Python rejects with a [TypeError] before the body runs.
    The annotation [threading.Thread] of the parameter names a module that
    is not imported; annotations are not evaluated in this model. *)
Definition ConnectionInfo_init {Conn : Type}
    (connection : Conn) (deadline : Z) (active : bool) (last_accessed : Z)
    (thread_arg : option Thread) (persistent : bool)
  : result (ConnectionInfo Conn) :=
  match thread_arg with
  | Some thread =>
      Return (mkConnectionInfo connection deadline active last_accessed
                thread persistent)
  | None => Raise missing_thread
  end.

Record Stats : Type := mkStats {
  connection_opened : Z;
  connection_pruned : Z;
  connection_closed : Z;
  connection_closed_failed : Z
}.

Definition Stats_init : Stats := mkStats 0 0 0 0.

Record Pool (Conn : Type) : Type := mkPool {
  max_conns : option Z;
  _stats : Stats;
  _conns : Dict.t (ConnectionInfo Conn);
  (** [self._config.connection_timeout] *)
  connection_timeout : option Z;
  (** the database names passed to [self._log.exception], oldest first *)
  _log : list string
}.

(** ** The environment *)

Class Env (World Conn : Type) : Type := {
  (** [datetime.datetime.now()] *)
  datetime_now : World -> Z * World;
  (** [time.sleep(0.01)] *)
  time_sleep : World -> World;
  (** [self.connect_fn(dbname)] *)
  connect_fn : string -> World -> result Conn * World;
  (** [db.closed] and [db.broken] *)
  db_closed : Conn -> World -> bool;
  db_broken : Conn -> World -> bool;
  (** [db.close()]: [true] when it returns, [false] when it raises *)
  db_close : Conn -> World -> bool * World
}.

(** ** The methods of the pool *)

Section Methods.

Context {World Conn : Type} {env : Env World Conn}.

Local Abbreviation Info := (ConnectionInfo Conn).
Local Abbreviation pool := (Pool Conn).

(** *** State and exception passing *)

Definition M (A : Type) : Type := pool -> World -> result A * pool * World.

Definition ret {A} (a : A) : M A := fun self w => (Return a, self, w).

Definition raise {A} (e : exn) : M A := fun self w => (Raise e, self, w).

Definition bind {A B} (m : M A) (k : A -> M B) : M B :=
  fun self w =>
    match m self w with
    | (Return a, self', w') => k a self' w'
    | (Raise e, self', w') => (Raise e, self', w')
    | (OutOfFuel, self', w') => (OutOfFuel, self', w')
    end.

Notation "x <- m ;; k" := (bind m (fun x => k))
  (at level 61, m at next level, right associativity).
Notation "m ;;; k" := (bind m (fun _ => k))
  (at level 61, right associativity).

Definition gets {A} (f : pool -> A) : M A := fun self w => (Return (f self), self, w).

Definition modify (f : pool -> pool) : M unit := fun self w => (Return tt, f self, w).

Definition now : M Z :=
  fun self w => let (t, w') := datetime_now w in (Return t, self, w').

Definition sleep : M unit := fun self w => (Return tt, self, time_sleep w).

Definition close (db : Conn) : M bool :=
  fun self w => let (ok, w') := db_close db w in (Return ok, self, w').

Definition lift {A} (f : World -> result A * World) : M A :=
  fun self w => let (r, w') := f w in (r, self, w').

Fixpoint for_each {A} (l : list A) (body : A -> M unit) : M unit :=
  match l with
  | [] => ret tt
  | x :: l' => body x ;;; for_each l' body
  end.

(** *** Field updates *)

Definition set_conns (d : Dict.t Info) (self : pool) : pool :=
  mkPool (max_conns self) (_stats self) d (connection_timeout self) (_log self).

Definition set_stats (st : Stats) (self : pool) : pool :=
  mkPool (max_conns self) st (_conns self) (connection_timeout self) (_log self).

Definition log_exception (dbname : string) (self : pool) : pool :=
  mkPool (max_conns self) (_stats self) (_conns self) (connection_timeout self)
    (_log self ++ [dbname]).

Definition incr_opened (st : Stats) : Stats :=
  mkStats (connection_opened st + 1) (connection_pruned st)
    (connection_closed st) (connection_closed_failed st).

Definition incr_pruned (st : Stats) : Stats :=
  mkStats (connection_opened st) (connection_pruned st + 1)
    (connection_closed st) (connection_closed_failed st).

Definition incr_closed (st : Stats) : Stats :=
  mkStats (connection_opened st) (connection_pruned st)
    (connection_closed st + 1) (connection_closed_failed st).

Definition incr_closed_failed (st : Stats) : Stats :=
  mkStats (connection_opened st) (connection_pruned st)
    (connection_closed st) (connection_closed_failed st + 1).

Definition set_active (b : bool) (c : Info) : Info :=
  mkConnectionInfo (connection c) (deadline c) b (last_accessed c)
    (thread c) (persistent c).

(** *** [_terminate_connection_unsafe] (lines 207-220) *)

Definition _terminate_connection_unsafe (dbname : string) : M bool :=
  conns <- gets (@_conns Conn) ;;
  match Dict.get dbname conns with
  | None => ret true
  | Some info =>
      modify (set_conns (Dict.remove dbname conns)) ;;;
      let db := connection info in
      ok <- close db ;;
      if ok then
        modify (fun self => set_stats (incr_closed (_stats self)) self) ;;;
        ret true
      else
        modify (fun self => set_stats (incr_closed_failed (_stats self)) self) ;;;
        modify (log_exception dbname) ;;;
        ret false
  end.

(** *** [prune_connections] (lines 169-181) *)

Definition prunable (t : Z) (conn : Info) : bool :=
  (deadline conn <? t) && negb (active conn) && negb (persistent conn).

(** The body of the loop of lines 178-181. *)
Definition prune_one (t : Z) (item : string * Info) : M unit :=
  let '(conn_name, conn) := item in
  if prunable t conn then
    modify (fun self => set_stats (incr_pruned (_stats self)) self) ;;;
    _terminate_connection_unsafe conn_name ;;;
    ret tt
  else ret tt.

Definition prune_connections : M unit :=
  t <- now ;;
  items <- gets (@_conns Conn) ;;
  for_each items (prune_one t).

(** *** [close_all_connections] (lines 183-191) *)

Fixpoint close_each (names : list string) (success : bool) : M bool :=
  match names with
  | [] => ret success
  | dbname :: names' =>
      ok <- _terminate_connection_unsafe dbname ;;
      close_each names' (if negb ok then false else success)
  end.

Definition close_all_connections : M bool :=
  names <- gets (fun self => Dict.keys (_conns self)) ;;
  close_each names true.

(** *** [evict_lru] (lines 193-205) *)

Definition evictable (item : string * Info) : bool :=
  negb (active (snd item)) && negb (persistent (snd item)).

Definition evict_lru : M (option string) :=
  conns <- gets (@_conns Conn) ;;
  let sorted_conns := sorted (fun i => last_accessed (snd i)) conns in
  match find evictable sorted_conns with
  | Some (name, _) =>
      _terminate_connection_unsafe name ;;;
      ret (Some name)
  | None => ret None
  end.

(** *** [_get_connection_raw] (lines 88-136) *)

Definition startup_hook : Type := Conn -> World -> result unit * World.

(** Python truthiness of the [timeout] argument: [None] and [0] are false. *)
Definition truthy (timeout : option Z) : bool :=
  match timeout with
  | Some t => negb (t =? 0)
  | None => false
  end.

(** Lines 101-104. *)
Definition effective_timeout (timeout : option Z) (self : pool) : option Z :=
  if negb (truthy timeout) then connection_timeout self else timeout.

Definition seconds (n : Z) : Z := n * 1000000.
Definition milliseconds (n : Z) : Z := n * 1000.

(** [(datetime.datetime.now() - start).total_seconds() > timeout] *)
Definition elapsed_exceeds (timeout start t : Z) : bool :=
  seconds timeout <? t - start.

(** Line 116-117.  The clock is read only when a timeout is set ([and]
    evaluates its right operand only then). *)
Definition check_timeout (max : Z) (timeout : option Z) (start : Z) : M unit :=
  match timeout with
  | None => ret tt
  | Some tmo =>
      t <- now ;;
      if elapsed_exceeds tmo start t
      then raise (ConnectionPoolFullError max tmo)
      else ret tt
  end.

(** Lines 113-119: the loop that frees space.  One unit of fuel is one
    iteration; the loop condition is tested before fuel is asked for. *)
Fixpoint free_space (fuel : nat) (max : Z) (timeout : option Z) (start : Z)
  : M unit :=
  fun self w =>
    if Z.of_nat (List.length (_conns self)) >=? max then
      match fuel with
      | O => (OutOfFuel, self, w)
      | S fuel' =>
          (prune_connections ;;;
           evict_lru ;;;
           check_timeout max timeout start ;;;
           sleep ;;;
           free_space fuel' max timeout start) self w
      end
    else (Return tt, self, w).

(** Lines 111-119. *)
Definition admission (fuel : nat) (timeout : option Z) (start : Z) : M unit :=
  max <- gets (@max_conns Conn) ;;
  match max with
  | Some m => free_space fuel m timeout start
  | None => ret tt
  end.

(** Lines 111-123: the branch that opens a new connection. *)
Definition open_connection (fuel : nat) (dbname : string) (timeout : option Z)
    (start : Z) (startup_fn : option startup_hook) : M Conn :=
  admission fuel timeout start ;;;
  modify (fun self => set_stats (incr_opened (_stats self)) self) ;;;
  db <- lift (connect_fn dbname) ;;
  match startup_fn with
  | Some f => lift (f db)
  | None => ret tt
  end ;;;
  ret db.

(** [db.closed or db.broken] *)
Definition unusable (db : Conn) : M bool :=
  fun self w => (Return (db_closed db w || db_broken db w), self, w).

(** Lines 101-126: find or open the connection [db] and settle the
    [persistent] flag of its record. *)
Definition obtain_connection (fuel : nat) (dbname : string)
    (timeout : option Z) (startup_fn : option startup_hook) (persistent' : bool)
  : M (Conn * bool) :=
  timeout <- gets (effective_timeout timeout) ;;
  start <- now ;;
  prune_connections ;;;
  conn <- gets (fun self => Dict.get dbname (_conns self)) ;;
  modify (fun self => set_conns (Dict.remove dbname (_conns self)) self) ;;;
  match conn with
  | None =>
      db <- open_connection fuel dbname timeout start startup_fn ;;
      ret (db, persistent')
  | Some c =>
      bad <- unusable (connection c) ;;
      if bad then
        db <- open_connection fuel dbname timeout start startup_fn ;;
        ret (db, persistent')
      else
        (* if already in pool, retain persistence status *)
        ret (connection c, persistent c)
  end.

(** Lines 128-136: build the record and store it.  The call of line 129
    passes [connection], [deadline], [active], [last_accessed] and
    [persistent], and no [thread]. *)
Definition register_connection (dbname : string) (ttl_ms : Z) (db : Conn)
    (persistent' : bool) : M Conn :=
  t <- now ;;
  let deadline := t + milliseconds ttl_ms in
  last_accessed <- now ;;
  info <- lift (fun w => (ConnectionInfo_init db deadline true last_accessed
                            None persistent', w)) ;;
  modify (fun self => set_conns (Dict.set dbname info (_conns self)) self) ;;;
  ret db.

Definition _get_connection_raw (fuel : nat) (dbname : string) (ttl_ms : Z)
    (timeout : option Z) (startup_fn : option startup_hook) (persistent' : bool)
  : M Conn :=
  p <- obtain_connection fuel dbname timeout startup_fn persistent' ;;
  register_connection dbname ttl_ms (fst p) (snd p).

(** *** [get_connection] (lines 138-167)

    A generator wrapped by [contextlib.contextmanager]: entering the [with]
    statement runs it up to its [yield], leaving the [with] statement resumes
    it there, normally or by throwing the exception of the body into it. *)

(** Line 149 reads the name [startup_fn].  [get_connection] has no such
    parameter or local, and the module binds no such global. *)
Definition load_name_startup_fn : M (option startup_hook) :=
  raise (NameError "startup_fn").

Definition get_connection_enter (fuel : nat) (dbname : string) (ttl_ms : Z)
    (timeout : option Z) (persistent : bool) : M Conn :=
  startup_fn <- load_name_startup_fn ;;
  _get_connection_raw fuel dbname ttl_ms timeout startup_fn persistent.

(** How the body of the [with] statement ended. *)
Inductive body_outcome : Type :=
| BodyCompleted
| BodyRaised (e : exn).

Definition is_InterruptedError (e : exn) : bool :=
  match e with
  | InterruptedError => true
  | _ => false
  end.

Definition get_connection_exit (dbname : string) (db : Conn)
    (body : body_outcome) : M unit :=
  match body with
  | BodyRaised e =>
      if is_InterruptedError e then
        (* interrupted_error_occurred = True *)
        _terminate_connection_unsafe dbname ;;;
        raise e
      else
        (* no except clause matches and the else clause is skipped *)
        raise e
  | BodyCompleted =>
      (* interrupted_error_occurred is still False *)
      broken <- (fun self w => (Return (db_broken db w), self, w)) ;;
      if broken then
        _terminate_connection_unsafe dbname ;;;
        ret tt
      else
        conns <- gets (@_conns Conn) ;;
        match Dict.get dbname conns with
        | Some c => modify (set_conns (Dict.set dbname (set_active false c) conns))
        | None => ret tt  (* KeyError, passed over *)
        end
  end.

(** [with self.get_connection(dbname, ttl_ms, timeout, persistent) as db: body] *)
Definition with_get_connection {A} (fuel : nat) (dbname : string) (ttl_ms : Z)
    (timeout : option Z) (persistent : bool) (body : Conn -> M A) : M A :=
  db <- get_connection_enter fuel dbname ttl_ms timeout persistent ;;
  fun self w =>
    match body db self w with
    | (Return a, self', w') =>
        (get_connection_exit dbname db BodyCompleted ;;; ret a) self' w'
    | (Raise e, self', w') =>
        (get_connection_exit dbname db (BodyRaised e) ;;; raise e) self' w'
    | (OutOfFuel, self', w') => (OutOfFuel, self', w')
    end.

(** *** Observing a run *)

Definition outcome {A} (r : result A * pool * World) : result A := fst (fst r).
Definition pool_after {A} (r : result A * pool * World) : pool := snd (fst r).
Definition world_after {A} (r : result A * pool * World) : World := snd r.

(** The world after [close()] has been called on the connections of the
    given records, in order. *)
Definition closes (items : list (string * Info)) (w : World) : World :=
  fold_left (fun w' item => snd (db_close (connection (snd item)) w')) items w.

(** The records of [items] whose [close()] raises when they are closed in
    order from world [w]. *)
Fixpoint close_failures (items : list (string * Info)) (w : World)
  : list string :=
  match items with
  | [] => []
  | (k, c) :: rest =>
      let (ok, w') := db_close (connection c) w in
      if ok then close_failures rest w' else k :: close_failures rest w'
  end.

(** *** Inside an acquire *)

(** The instant read at line 105. *)
Definition started (w : World) : Z := fst (datetime_now w).

(** Lines 105-106: the pool and the world once the sweep that opens every
    acquire is over. *)
Definition swept (self : pool) (w : World) : pool * World :=
  let r := prune_connections self (snd (datetime_now w)) in
  (pool_after r, world_after r).

(** Line 107: the record found for [dbname], and the pool without it. *)
Definition found (dbname : string) (self : pool) (w : World) : option Info :=
  Dict.get dbname (_conns (fst (swept self w))).

Definition popped (dbname : string) (self : pool) (w : World) : pool :=
  set_conns (Dict.remove dbname (_conns (fst (swept self w))))
    (fst (swept self w)).

(** Line 109: [db is None or db.closed or db.broken]. *)
Definition must_open (dbname : string) (self : pool) (w : World) : bool :=
  match found dbname self w with
  | Some c =>
      db_closed (connection c) (snd (swept self w))
      || db_broken (connection c) (snd (swept self w))
  | None => true
  end.

(** Lines 111-119 as run by an acquire that has to open a connection. *)
Definition admission_of (fuel : nat) (dbname : string) (timeout : option Z)
    (self : pool) (w : World) : result unit * pool * World :=
  admission fuel (effective_timeout timeout self) (started w)
    (popped dbname self w) (snd (swept self w)).

(** *** Waiting for a slot *)

(** What one pass of the loop of lines 113-119 does to the world when it
    finds nothing to close: the sweep reads the clock, the timeout test
    reads it again, and the pass sleeps. *)
Definition idle_pass (w : World) : World :=
  time_sleep (snd (datetime_now (snd (datetime_now w)))).

(** The instant the timeout test of such a pass compares with the start. *)
Definition pass_reading (w : World) : Z :=
  fst (datetime_now (snd (datetime_now w))).

Fixpoint idle_passes (n : nat) (w : World) : World :=
  match n with
  | O => w
  | S n' => idle_passes n' (idle_pass w)
  end.

(** *** Sequences of operations *)

Inductive op : Type :=
| Acquire (dbname : string) (ttl_ms : Z) (timeout : option Z)
    (startup_fn : option startup_hook) (persistent' : bool)
| Prune
| Evict.

(** One operation, whatever its outcome: a caller that catches the
    exception of an acquire goes on with the pool as the acquire left it. *)
Definition run_op (fuel : nat) (o : op) (st : pool * World) : pool * World :=
  match o with
  | Acquire dbname ttl_ms timeout startup_fn persistent' =>
      let r := _get_connection_raw fuel dbname ttl_ms timeout startup_fn
                 persistent' (fst st) (snd st) in
      (pool_after r, world_after r)
  | Prune =>
      let r := prune_connections (fst st) (snd st) in
      (pool_after r, world_after r)
  | Evict =>
      let r := evict_lru (fst st) (snd st) in
      (pool_after r, world_after r)
  end.

Definition run_ops (fuel : nat) (ops : list op) (st : pool * World)
  : pool * World :=
  fold_left (fun st' o => run_op fuel o st') ops st.

(** The keys that a sequence of operations acquires. *)
Fixpoint acquired (ops : list op) : list string :=
  match ops with
  | [] => []
  | Acquire dbname _ _ _ _ :: ops' => dbname :: acquired ops'
  | _ :: ops' => acquired ops'
  end.

(** *** Registries compared *)

(** A record that is in use or persistent. *)
Definition guarded (c : Info) : bool := active c || persistent c.

(** [d'] comes from [d] by removals that spare the guarded records, the
    record of key [x] set apart: no record is added or changed. *)
Definition preserved_except (x : option string) (d d' : Dict.t Info) : Prop :=
  Dict.wf d' /\
  (forall k c, Some k <> x -> Dict.get k d = Some c -> guarded c = true ->
     Dict.get k d' = Some c) /\
  (forall k c, Some k <> x -> Dict.get k d' = Some c -> Dict.get k d = Some c) /\
  (forall k, Dict.get k d = None -> Dict.get k d' = None).

Definition frames {A} (x : option string) (m : M A) : Prop :=
  forall self w,
    Dict.wf (_conns self) ->
    preserved_except x (_conns self) (_conns (pool_after (m self w))).

End Methods.

(** ** Calls into the pool, one after the other *)

Section Calls.

Context {World Conn : Type} {env : Env World Conn}.

Local Abbreviation Info := (ConnectionInfo Conn).
Local Abbreviation pool := (Pool Conn).

(** The entry points of the class: the raw acquire, the part of
    [get_connection] that runs when the [with] statement is left, and the
    four methods that close connections. *)
Inductive call : Type :=
| CallAcquire (dbname : string) (ttl_ms : Z) (timeout : option Z)
    (startup_fn : option (@startup_hook World Conn)) (persistent' : bool)
| CallRelease (dbname : string) (db : Conn) (body : body_outcome)
| CallPrune
| CallEvict
| CallCloseAll
| CallTerminate (dbname : string).

Definition drop {A} (r : result A * pool * World) : pool * World :=
  (pool_after r, world_after r).

(** One call, whatever its outcome. *)
Definition run_call (fuel : nat) (c : call) (st : pool * World) : pool * World :=
  match c with
  | CallAcquire dbname ttl_ms timeout startup_fn persistent' =>
      drop (_get_connection_raw fuel dbname ttl_ms timeout startup_fn
              persistent' (fst st) (snd st))
  | CallRelease dbname db body =>
      drop (get_connection_exit dbname db body (fst st) (snd st))
  | CallPrune => drop (prune_connections (fst st) (snd st))
  | CallEvict => drop (evict_lru (fst st) (snd st))
  | CallCloseAll => drop (close_all_connections (fst st) (snd st))
  | CallTerminate dbname =>
      drop (_terminate_connection_unsafe dbname (fst st) (snd st))
  end.

Definition run_calls (fuel : nat) (cs : list call) (st : pool * World)
  : pool * World :=
  fold_left (fun st' c => run_call fuel c st') cs st.

(** The calls that do nothing but close connections. *)
Definition closing (c : call) : bool :=
  match c with
  | CallPrune | CallEvict | CallCloseAll | CallTerminate _ => true
  | CallAcquire _ _ _ _ _ | CallRelease _ _ _ => false
  end.

(** *** [Stats.reset] *)

(** [Stats.reset] (lines 67-68) runs [Stats.__init__] again. *)
Definition Stats_reset (st : Stats) : Stats := Stats_init.

Definition reset_stats (self : pool) : pool :=
  set_stats (Stats_reset (_stats self)) self.

(** The opened counter is as it was. *)
Definition opens_nothing (s s' : pool) : Prop :=
  connection_opened (_stats s') = connection_opened (_stats s).

(** *** The end of a lease *)





(** *** Relations between the pool before and after *)

(** A computation keeps the relation [R], from a well-formed registry to a
    well-formed registry. *)
Definition keeps {A} (R : pool -> pool -> Prop)
    (m : pool -> World -> result A * pool * World) : Prop :=
  forall self w,
    Dict.wf (_conns self) ->
    Dict.wf (_conns (pool_after (m self w))) /\ R self (pool_after (m self w)).

(** No counter has gone down. *)
Definition counters_grow (s s' : pool) : Prop :=
  connection_opened (_stats s) <= connection_opened (_stats s') /\
  connection_pruned (_stats s) <= connection_pruned (_stats s') /\
  connection_closed (_stats s) <= connection_closed (_stats s') /\
  connection_closed_failed (_stats s) <= connection_closed_failed (_stats s').

(** The log has grown by as many lines as the closed-failed counter. *)
Definition failures_logged (s s' : pool) : Prop :=
  connection_closed_failed (_stats s') - connection_closed_failed (_stats s)
    = Z.of_nat (List.length (_log s')) - Z.of_nat (List.length (_log s)) /\
  exists lines, _log s' = _log s ++ lines.

(** Every record there afterwards was there before, as it is or with
    [active] cleared. *)
Definition no_record_made (s s' : pool) : Prop :=
  forall k c', Dict.get k (_conns s') = Some c' ->
    exists c, Dict.get k (_conns s) = Some c /\
              (c' = c \/ c' = set_active false c).

(** Every record that left was counted as closed or as failing to close. *)
Definition closes_counted (s s' : pool) : Prop :=
  Z.of_nat (List.length (_conns s'))
    + connection_closed (_stats s') + connection_closed_failed (_stats s')
  = Z.of_nat (List.length (_conns s))
    + connection_closed (_stats s) + connection_closed_failed (_stats s).

End Calls.

(** ** A simulated environment

    An executable instance of [Env], used to run the pool on concrete
    inputs.  Connections are numbered in the order the factory opens them;
    the clock moves only while the pool sleeps. *)

Module Sim.

Record ConnState : Type := mkConnState {
  is_closed : bool;
  is_broken : bool;
  (** [close()] raises on this connection *)
  close_raises : bool
}.

Record World : Type := mkWorld {
  (** the wall clock, in microseconds *)
  clock : Z;
  (** the connection objects, by handle *)
  objects : list ConnState;
  (** the databases for which the factory raises *)
  unreachable : list string
}.

Definition fresh : ConnState := mkConnState false false false.

Definition lookup (db : nat) (w : World) : ConnState :=
  nth db (objects w) (mkConnState true true false).

Fixpoint update (db : nat) (c : ConnState) (l : list ConnState) : list ConnState :=
  match l, db with
  | [], _ => []
  | _ :: l', O => c :: l'
  | x :: l', S n => x :: update n c l'
  end.

Definition sim_now (w : World) : Z * World := (clock w, w).

Definition sim_sleep (w : World) : World :=
  mkWorld (clock w + 10000) (objects w) (unreachable w).

Definition sim_connect (dbname : string) (w : World) : result nat * World :=
  if existsb (String.eqb dbname) (unreachable w)
  then (Raise (OtherError 1), w)
  else (Return (List.length (objects w)),
        mkWorld (clock w) (objects w ++ [fresh]) (unreachable w)).

Definition sim_close (db : nat) (w : World) : bool * World :=
  if close_raises (lookup db w) then (false, w)
  else (true,
        mkWorld (clock w)
          (update db (mkConnState true (is_broken (lookup db w)) false) (objects w))
          (unreachable w)).

#[export] Instance env : Env World nat := {
  datetime_now := sim_now;
  time_sleep := sim_sleep;
  connect_fn := sim_connect;
  db_closed := fun db w => is_closed (lookup db w);
  db_broken := fun db w => is_broken (lookup db w);
  db_close := sim_close
}.

(** A record as a caller that holds a thread would have stored it. *)
Definition record (db : nat) (deadline : Z) (active : bool) (last_accessed : Z)
    (persistent : bool) : ConnectionInfo nat :=
  mkConnectionInfo db deadline active last_accessed O persistent.

Definition pool_of (max : option Z) (conns : Dict.t (ConnectionInfo nat))
  : Pool nat :=
  mkPool max Stats_init conns (Some 5) [].

Definition world_of (t : Z) (objects : list ConnState) : World :=
  mkWorld t objects [].

(** Five records: two idle ones whose deadline is 100, a busy one, an idle
    persistent one long past its deadline, and an idle one far from its
    deadline that was last used when ["a"] was. *)
Definition registry5 : Dict.t (ConnectionInfo nat) :=
  [("a", record 0 100 false 10 false);
   ("b", record 1 100 false 30 false);
   ("c", record 2 100 true 5 false);
   ("d", record 3 50 false 7 true);
   ("e", record 4 500 false 10 false)].

Definition objects5 : list ConnState := [fresh; fresh; fresh; fresh; fresh].

(** One slot, taken by an idle record; the factory cannot reach ["a"]. *)
Definition idle1 : Pool nat := pool_of (Some 1) [("b", record 0 1000 false 10 false)].

Definition world_idle1 : World := mkWorld 100 [fresh] ["a"].

(** One slot, taken by a record that is in use. *)
Definition busy1 : Pool nat := pool_of (Some 1) [("c", record 0 100 true 5 false)].

(** An expired idle record for ["b"] and a record for ["a"] whose connection
    (the second object) is closed; the factory cannot reach ["a"]. *)
Definition stale_a : Pool nat :=
  pool_of None [("b", record 0 50 false 10 false);
                ("a", record 1 1000 false 20 false)].

Definition world_stale_a : World :=
  mkWorld 100 [fresh; mkConnState true false false] ["a"].

(** The same connections, the second refusing to close. *)
Definition objects5' : list ConnState :=
  [fresh; mkConnState false false true; fresh; fresh; fresh].

End Sim.

(** * Verification *)

(** ** Dictionaries *)

Module DictFacts.

Lemma get_app_notin {V} (k : string) (pre d : Dict.t V) :
  ~ In k (Dict.keys pre) -> Dict.get k (pre ++ d) = Dict.get k d.
Proof.
  induction pre as [|[k' v] pre IH]; simpl; intros Hn; [reflexivity|].
  destruct (String.eqb_spec k k') as [->|Hne].
  - exfalso; apply Hn; now left.
  - apply IH; intros Hin; apply Hn; now right.
Qed.

Lemma remove_app_notin {V} (k : string) (pre d : Dict.t V) :
  ~ In k (Dict.keys pre) -> Dict.remove k (pre ++ d) = pre ++ Dict.remove k d.
Proof.
  induction pre as [|[k' v] pre IH]; simpl; intros Hn; [reflexivity|].
  destruct (String.eqb_spec k k') as [->|Hne].
  - exfalso; apply Hn; now left.
  - f_equal; apply IH; intros Hin; apply Hn; now right.
Qed.

Lemma get_In {V} (k : string) (v : V) (d : Dict.t V) :
  Dict.get k d = Some v -> In (k, v) d.
Proof.
  induction d as [|[k' v'] d IH]; simpl; [discriminate|].
  destruct (String.eqb_spec k k') as [->|Hne]; intros Hg.
  - injection Hg as ->; now left.
  - right; auto.
Qed.

Lemma get_None {V} (k : string) (d : Dict.t V) :
  Dict.get k d = None <-> ~ In k (Dict.keys d).
Proof.
  induction d as [|[k' v'] d IH]; simpl.
  - tauto.
  - destruct (String.eqb_spec k k') as [->|Hne].
    + split; [discriminate|]; intros Hn; exfalso; apply Hn; now left.
    + rewrite IH; split; intros Hn; [intros [E|Hin]|]; try tauto.
      now apply Hne.
Qed.

Lemma In_get {V} (k : string) (v : V) (d : Dict.t V) :
  Dict.wf d -> In (k, v) d -> Dict.get k d = Some v.
Proof.
  unfold Dict.wf.
  induction d as [|[k' v'] d IH]; simpl; intros Hwf Hin; [contradiction|].
  inversion Hwf as [|? ? Hnotin Hwf']; subst.
  destruct Hin as [E|Hin].
  - injection E as -> ->; now rewrite String.eqb_refl.
  - destruct (String.eqb_spec k k') as [->|Hne]; [|auto].
    exfalso; apply Hnotin.
    change k' with (fst (k', v)); now apply in_map.
Qed.

Lemma keys_filter_incl {V} (f : string * V -> bool) (d : Dict.t V) (k : string) :
  In k (Dict.keys (filter f d)) -> In k (Dict.keys d).
Proof.
  unfold Dict.keys; rewrite !in_map_iff.
  intros [x [E Hin]]; exists x; split; [assumption|].
  now apply filter_In in Hin.
Qed.

Lemma wf_filter {V} (f : string * V -> bool) (d : Dict.t V) :
  Dict.wf d -> Dict.wf (filter f d).
Proof.
  unfold Dict.wf.
  induction d as [|[k v] d IH]; simpl; intros Hwf; [constructor|].
  inversion Hwf as [|? ? Hnotin Hwf']; subst.
  destruct (f (k, v)); simpl; [constructor|]; auto.
  intros Hin; apply Hnotin; eapply keys_filter_incl; eassumption.
Qed.

Lemma get_filter {V} (f : string * V -> bool) (d : Dict.t V) (k : string) (v : V) :
  Dict.wf d ->
  (Dict.get k (filter f d) = Some v <-> Dict.get k d = Some v /\ f (k, v) = true).
Proof.
  intros Hwf; split.
  - intros Hg; apply get_In in Hg; apply filter_In in Hg as [Hin Hf].
    split; [now apply In_get|assumption].
  - intros [Hg Hf]; apply In_get; [now apply wf_filter|].
    apply filter_In; split; [now apply get_In|assumption].
Qed.

Lemma wf_app_cons {V} (pre d : Dict.t V) (k : string) (v : V) :
  Dict.wf (pre ++ (k, v) :: d) ->
  ~ In k (Dict.keys pre) /\ ~ In k (Dict.keys d) /\ Dict.wf (pre ++ d).
Proof.
  unfold Dict.wf, Dict.keys; rewrite !map_app; simpl; intros Hwf.
  pose proof (NoDup_remove_1 _ _ _ Hwf) as H1.
  pose proof (NoDup_remove_2 _ _ _ Hwf) as H2.
  rewrite in_app_iff in H2; tauto.
Qed.

Lemma get_remove_same {V} (k : string) (d : Dict.t V) :
  Dict.wf d -> Dict.get k (Dict.remove k d) = None.
Proof.
  unfold Dict.wf.
  induction d as [|[k' v] d IH]; simpl; intros Hwf; [reflexivity|].
  inversion Hwf as [|? ? Hnotin Hwf']; subst.
  destruct (String.eqb_spec k k') as [->|Hne].
  - now apply get_None.
  - simpl; destruct (String.eqb_spec k k'); [contradiction|auto].
Qed.

Lemma get_remove_other {V} (k k' : string) (d : Dict.t V) :
  k' <> k -> Dict.get k' (Dict.remove k d) = Dict.get k' d.
Proof.
  intros Hne.
  induction d as [|[k0 v] d IH]; simpl; [reflexivity|].
  destruct (String.eqb_spec k k0) as [->|Hne0].
  - destruct (String.eqb_spec k' k0); [contradiction|reflexivity].
  - simpl; now rewrite IH.
Qed.

Lemma keys_remove_incl {V} (k k' : string) (d : Dict.t V) :
  In k' (Dict.keys (Dict.remove k d)) -> In k' (Dict.keys d).
Proof.
  induction d as [|[k0 v] d IH]; simpl; [tauto|].
  destruct (String.eqb k k0); simpl; tauto.
Qed.

Lemma wf_remove {V} (k : string) (d : Dict.t V) :
  Dict.wf d -> Dict.wf (Dict.remove k d).
Proof.
  unfold Dict.wf.
  induction d as [|[k0 v] d IH]; simpl; intros Hwf; [constructor|].
  inversion Hwf as [|? ? Hnotin Hwf']; subst.
  destruct (String.eqb k k0); simpl; [assumption|].
  constructor; [|auto].
  intros Hin; apply Hnotin; eapply keys_remove_incl; eassumption.
Qed.

Lemma get_set_other {V} (k k' : string) (v : V) (d : Dict.t V) :
  k' <> k -> Dict.get k' (Dict.set k v d) = Dict.get k' d.
Proof.
  intros Hne.
  induction d as [|[k0 v0] d IH]; simpl.
  - destruct (String.eqb_spec k' k); [contradiction|reflexivity].
  - destruct (String.eqb_spec k k0) as [->|Hne0]; simpl.
    + destruct (String.eqb_spec k' k0); [contradiction|reflexivity].
    + now rewrite IH.
Qed.

Lemma keys_set_present {V} (k : string) (v v' : V) (d : Dict.t V) :
  Dict.get k d = Some v' -> Dict.keys (Dict.set k v d) = Dict.keys d.
Proof.
  induction d as [|[k0 v0] d IH]; simpl; [discriminate|].
  destruct (String.eqb_spec k k0) as [->|Hne]; simpl; [reflexivity|].
  intros Hg. now rewrite IH.
Qed.

End DictFacts.

(** ** The pool *)

Section PoolFacts.

Context {World Conn : Type} {env : Env World Conn}.

Local Abbreviation Info := (ConnectionInfo Conn).
Local Abbreviation pool := (Pool Conn).
Local Abbreviation M := (@M World Conn).

Notation "x <- m ;; k" := (bind m (fun x => k))
  (at level 61, m at next level, right associativity).
Notation "m ;;; k" := (bind m (fun _ => k))
  (at level 61, right associativity).

Ltac run := unfold bind, gets, modify, ret, raise, close, now, sleep, lift; simpl.

(** *** [_terminate_connection_unsafe] *)

Lemma terminate_absent (dbname : string) (self : pool) (w : World) :
  Dict.get dbname (_conns self) = None ->
  _terminate_connection_unsafe dbname self w = (Return true, self, w).
Proof.
  intros Hg; unfold _terminate_connection_unsafe; run; now rewrite Hg.
Qed.

Lemma terminate_present (dbname : string) (info : Info) (self : pool) (w : World) :
  Dict.get dbname (_conns self) = Some info ->
  _terminate_connection_unsafe dbname self w =
    (Return (fst (db_close (connection info) w)),
     mkPool (max_conns self)
       (if fst (db_close (connection info) w)
        then incr_closed (_stats self) else incr_closed_failed (_stats self))
       (Dict.remove dbname (_conns self))
       (connection_timeout self)
       (if fst (db_close (connection info) w)
        then _log self else _log self ++ [dbname]),
     snd (db_close (connection info) w)).
Proof.
  intros Hg; unfold _terminate_connection_unsafe; run; rewrite Hg; run.
  destruct (db_close (connection info) w) as [[|] w']; reflexivity.
Qed.

(** *** [prune_connections] *)

Lemma stats_eq (a b c d a' b' c' d' : Z) :
  a = a' -> b = b' -> c = c' -> d = d' -> mkStats a b c d = mkStats a' b' c' d'.
Proof. congruence. Qed.

Lemma run_eq {A} (r : result A) (mx : option Z) (tmo : option Z)
    (st st' : Stats) (d d' : Dict.t Info) (lg lg' : list string) (w w' : World) :
  st = st' -> d = d' -> lg = lg' -> w = w' ->
  (r, mkPool mx st d tmo lg, w) = (r, mkPool mx st' d' tmo lg', w').
Proof. congruence. Qed.

Lemma prune_loop (t : Z) (l : Dict.t Info) :
  forall (pre : Dict.t Info) (mx : option Z) (st : Stats) (tmo : option Z)
         (lg : list string) (w : World),
    Dict.wf (pre ++ l) ->
    let removed := filter (fun i => prunable t (snd i)) l in
    let failed := close_failures removed w in
    for_each l (prune_one t) (mkPool mx st (pre ++ l) tmo lg) w =
      (Return tt,
       mkPool mx
         (mkStats (connection_opened st)
            (connection_pruned st + Z.of_nat (List.length removed))
            (connection_closed st + Z.of_nat (List.length removed)
               - Z.of_nat (List.length failed))
            (connection_closed_failed st + Z.of_nat (List.length failed)))
         (pre ++ filter (fun i => negb (prunable t (snd i))) l)
         tmo (lg ++ failed),
       closes removed w).
Proof.
  induction l as [|[k c] l IH]; intros pre mx st tmo lg w Hwf; cbv zeta.
  - simpl. unfold ret. rewrite !app_nil_r. destruct st; simpl.
    apply run_eq; try reflexivity. apply stats_eq; lia.
  - destruct (DictFacts.wf_app_cons _ _ _ _ Hwf) as (Hpre & Hl & Hwf').
    simpl for_each. unfold bind at 1. unfold prune_one at 1.
    simpl filter. simpl snd. destruct (prunable t c) eqn:E; simpl negb; cbv iota.
    + unfold bind at 1. unfold modify at 1. unfold set_stats at 1. simpl.
      unfold bind at 1.
      rewrite (@terminate_present k c).
      2:{ simpl. rewrite DictFacts.get_app_notin by assumption.
          simpl. now rewrite String.eqb_refl. }
      simpl. unfold ret at 1.
      rewrite DictFacts.remove_app_notin by assumption.
      simpl. rewrite String.eqb_refl.
      rewrite IH by assumption. cbv zeta.
      unfold closes at 2. simpl fold_left. fold (closes (filter (fun i => prunable t (snd i)) l)).
      destruct (db_close (connection c) w) as [[|] w']; simpl.
      * apply run_eq; try reflexivity. apply stats_eq; simpl; lia.
      * apply run_eq; try reflexivity.
        -- apply stats_eq; simpl List.length; simpl; lia.
        -- rewrite <- app_assoc. reflexivity.
    + unfold ret at 1.
      replace (pre ++ (k, c) :: l) with ((pre ++ [(k, c)]) ++ l)
        by (rewrite <- app_assoc; reflexivity).
      rewrite IH by (rewrite <- app_assoc; exact Hwf).
      cbv zeta. rewrite <- app_assoc. reflexivity.
Qed.

Lemma prune_connections_eq (self : pool) (w : World) :
  Dict.wf (_conns self) ->
  let t := fst (datetime_now w) in
  let w0 := snd (datetime_now w) in
  let removed := filter (fun i => prunable t (snd i)) (_conns self) in
  let failed := close_failures removed w0 in
  prune_connections self w =
    (Return tt,
     mkPool (max_conns self)
       (mkStats (connection_opened (_stats self))
          (connection_pruned (_stats self) + Z.of_nat (List.length removed))
          (connection_closed (_stats self) + Z.of_nat (List.length removed)
             - Z.of_nat (List.length failed))
          (connection_closed_failed (_stats self) + Z.of_nat (List.length failed)))
       (filter (fun i => negb (prunable t (snd i))) (_conns self))
       (connection_timeout self) (_log self ++ failed),
     closes removed w0).
Proof.
  intros Hwf; cbv zeta.
  unfold prune_connections, bind, now, gets.
  destruct (datetime_now w) as [t w0]; simpl fst; simpl snd.
  destruct self as [mx st d tmo lg]; simpl in *.
  exact (@prune_loop t d [] mx st tmo lg w0 Hwf).
Qed.

Lemma prunable_iff (t : Z) (c : Info) :
  prunable t c = true <->
  active c = false /\ persistent c = false /\ deadline c < t.
Proof.
  unfold prunable.
  rewrite !andb_true_iff, !negb_true_iff, Z.ltb_lt. tauto.
Qed.

Lemma get_filter_cases (f : string * Info -> bool) (d : Dict.t Info)
    (k : string) (c : Info) :
  Dict.wf d -> Dict.get k d = Some c ->
  Dict.get k (filter f d) = if f (k, c) then Some c else None.
Proof.
  intros Hwf Hg.
  destruct (Dict.get k (filter f d)) as [c'|] eqn:E.
  - apply DictFacts.get_filter in E as [Hg' Hf]; [|assumption].
    assert (c' = c) by congruence; subst. now rewrite Hf.
  - destruct (f (k, c)) eqn:Hf; [|reflexivity].
    assert (Dict.get k (filter f d) = Some c)
      by (apply DictFacts.get_filter; auto).
    congruence.
Qed.

Lemma get_filter_absent (f : string * Info -> bool) (d : Dict.t Info) (k : string) :
  Dict.get k d = None -> Dict.get k (filter f d) = None.
Proof.
  rewrite !DictFacts.get_None. intros Hn Hin.
  apply Hn. eapply DictFacts.keys_filter_incl; eassumption.
Qed.

(** *** [sorted] and [evict_lru] *)

Section SortedFacts.

Variable A : Type.
Variable key : A -> Z.

Let le_key (a b : A) : Prop := key a <= key b.

Lemma In_insert_sorted (x y : A) (l : list A) :
  In y (insert_sorted key x l) <-> y = x \/ In y l.
Proof.
  induction l as [|z l IH]; simpl.
  - intuition.
  - destruct (key x <=? key z); simpl; rewrite ?IH; intuition.
Qed.

Lemma In_sorted (y : A) (l : list A) : In y (sorted key l) <-> In y l.
Proof.
  induction l as [|x l IH]; simpl; [tauto|].
  rewrite In_insert_sorted, IH; intuition.
Qed.

Lemma insert_sorted_StronglySorted (x : A) (l : list A) :
  StronglySorted le_key l -> StronglySorted le_key (insert_sorted key x l).
Proof.
  induction 1 as [|z l Hs IH Hall]; simpl.
  - repeat constructor.
  - destruct (Z.leb_spec (key x) (key z)) as [Hle|Hgt].
    + constructor; [constructor; assumption|].
      constructor; [exact Hle|].
      rewrite Forall_forall in *; intros y Hy.
      unfold le_key in *; specialize (Hall y Hy); lia.
    + constructor; [assumption|].
      rewrite Forall_forall in *; intros y Hy.
      apply In_insert_sorted in Hy as [->|Hy]; [unfold le_key; lia|auto].
Qed.

Lemma sorted_StronglySorted (l : list A) : StronglySorted le_key (sorted key l).
Proof.
  induction l; simpl; [constructor|now apply insert_sorted_StronglySorted].
Qed.

Lemma find_split (p : A -> bool) (l : list A) (x : A) :
  find p l = Some x ->
  exists l1 l2, l = l1 ++ x :: l2 /\ p x = true /\ Forall (fun y => p y = false) l1.
Proof.
  induction l as [|z l IH]; simpl; [discriminate|].
  destruct (p z) eqn:E.
  - intros [= ->]. exists [], l. auto.
  - intros Hf. destruct (IH Hf) as (l1 & l2 & -> & Hp & Hall).
    exists (z :: l1), l2. auto.
Qed.

Lemma StronglySorted_app_cons (l1 l2 : list A) (x : A) :
  StronglySorted le_key (l1 ++ x :: l2) -> Forall (le_key x) l2.
Proof.
  induction l1 as [|z l1 IH]; simpl; intros Hs; inversion Hs; subst; auto.
Qed.

(** The first element of the sorted list that satisfies [p] has the least
    key among the elements that satisfy [p]. *)
Lemma find_sorted_least (p : A -> bool) (l : list A) (x : A) :
  find p (sorted key l) = Some x ->
  In x l /\ p x = true /\ forall y, In y l -> p y = true -> key x <= key y.
Proof.
  intros Hf.
  destruct (find_split _ _ Hf) as (l1 & l2 & E & Hp & Hall).
  split; [|split; [assumption|]].
  - apply (proj1 (In_sorted _ _)). rewrite E. apply in_elt.
  - intros y Hy Hpy.
    apply (proj2 (In_sorted _ _)) in Hy. rewrite E in Hy.
    apply in_app_or in Hy as [Hy|[<-|Hy]].
    + rewrite Forall_forall in Hall. specialize (Hall y Hy). congruence.
    + lia.
    + pose proof (sorted_StronglySorted l) as Hs. rewrite E in Hs.
      apply StronglySorted_app_cons in Hs.
      rewrite Forall_forall in Hs. exact (Hs y Hy).
Qed.

Lemma find_sorted_none (p : A -> bool) (l : list A) :
  find p (sorted key l) = None <-> forall y, In y l -> p y = false.
Proof.
  split.
  - intros Hf y Hy. apply (proj2 (In_sorted _ _)) in Hy.
    exact (find_none _ _ Hf y Hy).
  - intros Hall.
    destruct (find p (sorted key l)) as [x|] eqn:E; [|reflexivity].
    apply find_some in E as [Hin Hp]. apply (proj1 (In_sorted _ _)) in Hin.
    specialize (Hall x Hin). congruence.
Qed.

(** Stability: elements of equal key keep their order. *)
Lemma filter_insert_sorted (k : Z) (x : A) (l : list A) :
  filter (fun y => key y =? k) (insert_sorted key x l) =
    if key x =? k then x :: filter (fun y => key y =? k) l
    else filter (fun y => key y =? k) l.
Proof.
  induction l as [|z l IH]; simpl.
  - now destruct (key x =? k).
  - destruct (Z.leb_spec (key x) (key z)) as [Hle|Hgt]; simpl.
    + now destruct (key x =? k).
    + rewrite IH.
      destruct (Z.eqb_spec (key x) k) as [Hx|Hx]; [|reflexivity].
      destruct (Z.eqb_spec (key z) k) as [Hz|Hz]; [lia|reflexivity].
Qed.

Lemma filter_sorted (k : Z) (l : list A) :
  filter (fun y => key y =? k) (sorted key l) = filter (fun y => key y =? k) l.
Proof.
  induction l as [|x l IH]; simpl; [reflexivity|].
  rewrite filter_insert_sorted, IH. reflexivity.
Qed.

Lemma find_filter (p q : A -> bool) (l : list A) :
  find p (filter q l) = find (fun y => q y && p y) l.
Proof.
  induction l as [|z l IH]; simpl; [reflexivity|].
  destruct (q z); simpl; [|exact IH].
  now destruct (p z).
Qed.

(** Among the elements that satisfy [p] and have the key of the one found,
    the one found comes first in the original list. *)
Lemma find_sorted_first_tie (p : A -> bool) (l : list A) (x : A) :
  find p (sorted key l) = Some x ->
  find (fun y => (key y =? key x) && p y) l = Some x.
Proof.
  intros Hf.
  rewrite <- find_filter, <- filter_sorted, find_filter.
  destruct (find_split _ _ Hf) as (l1 & l2 & -> & Hp & Hall).
  clear Hf. induction l1 as [|z l1 IH]; simpl.
  - now rewrite Z.eqb_refl, Hp.
  - inversion Hall as [|? ? Hz Hall']; subst.
    rewrite Hz, andb_false_r. now apply IH.
Qed.

End SortedFacts.

Lemma evictable_iff (item : string * Info) :
  evictable item = true <->
  active (snd item) = false /\ persistent (snd item) = false.
Proof.
  unfold evictable. rewrite andb_true_iff, !negb_true_iff. tauto.
Qed.

Lemma evict_lru_none (self : pool) (w : World) :
  (forall item, In item (_conns self) -> evictable item = false) ->
  evict_lru self w = (Return None, self, w).
Proof.
  intros Hall. apply find_sorted_none with (key := fun i => last_accessed (snd i)) in Hall.
  unfold evict_lru, bind, gets. simpl. now rewrite Hall.
Qed.

Lemma evict_lru_some (self : pool) (w : World) (name : string) (c : Info) :
  Dict.wf (_conns self) ->
  find evictable (sorted (fun i => last_accessed (snd i)) (_conns self))
    = Some (name, c) ->
  evict_lru self w =
    (Return (Some name),
     mkPool (max_conns self)
       (if fst (db_close (connection c) w)
        then incr_closed (_stats self) else incr_closed_failed (_stats self))
       (Dict.remove name (_conns self))
       (connection_timeout self)
       (if fst (db_close (connection c) w)
        then _log self else _log self ++ [name]),
     snd (db_close (connection c) w)).
Proof.
  intros Hwf Hf.
  pose proof (find_sorted_least _ _ _ Hf) as (Hin & _ & _).
  apply DictFacts.In_get in Hin; [|assumption].
  unfold evict_lru, bind, gets. simpl. rewrite Hf.
  rewrite (terminate_present _ _ _ Hin). reflexivity.
Qed.

(** *** [close_all_connections] *)

Lemma close_each_eq (l : Dict.t Info) :
  forall (success : bool) (mx : option Z) (st : Stats) (tmo : option Z)
         (lg : list string) (w : World),
    Dict.wf l ->
    let failed := close_failures l w in
    close_each (Dict.keys l) success (mkPool mx st l tmo lg) w =
      (Return (success && match failed with [] => true | _ :: _ => false end),
       mkPool mx
         (mkStats (connection_opened st) (connection_pruned st)
            (connection_closed st + Z.of_nat (List.length l)
               - Z.of_nat (List.length failed))
            (connection_closed_failed st + Z.of_nat (List.length failed)))
         [] tmo (lg ++ failed),
       closes l w).
Proof.
  induction l as [|[k c] l IH]; intros success mx st tmo lg w Hwf; cbv zeta.
  - simpl. unfold ret. rewrite andb_true_r, app_nil_r. destruct st; simpl.
    apply run_eq; try reflexivity. apply stats_eq; lia.
  - simpl Dict.keys. simpl close_each. unfold bind at 1.
    rewrite (@terminate_present k c) by (simpl; now rewrite String.eqb_refl).
    simpl. rewrite String.eqb_refl.
    assert (Hwf' : Dict.wf l) by (inversion Hwf; assumption).
    unfold closes. simpl fold_left. fold (closes l).
    destruct (db_close (connection c) w) as [[|] w']; simpl;
      rewrite IH by assumption; cbv zeta.
    + apply run_eq; try reflexivity. apply stats_eq; simpl; lia.
    + rewrite andb_false_r.
      apply run_eq; try reflexivity.
      * apply stats_eq; simpl List.length; simpl; lia.
      * rewrite <- app_assoc. reflexivity.
Qed.

(** *** What the methods leave in the registry *)

Lemma preserved_refl (x : option string) (d : Dict.t Info) :
  Dict.wf d -> preserved_except x d d.
Proof. unfold preserved_except; auto. Qed.

Lemma preserved_trans (x : option string) (d1 d2 d3 : Dict.t Info) :
  preserved_except x d1 d2 -> preserved_except x d2 d3 ->
  preserved_except x d1 d3.
Proof.
  intros (W2 & K2 & N2 & A2) (W3 & K3 & N3 & A3).
  repeat split; eauto.
Qed.

Lemma preserved_weaken (x : option string) (d d' : Dict.t Info) :
  preserved_except None d d' -> preserved_except x d d'.
Proof.
  intros (W & K & N & A).
  repeat split; auto; intros; [apply K|apply N]; auto; discriminate.
Qed.

Lemma preserved_filter (x : option string) (f : string * Info -> bool)
    (d : Dict.t Info) :
  Dict.wf d ->
  (forall k c, guarded c = true -> f (k, c) = true) ->
  preserved_except x d (filter f d).
Proof.
  intros Hwf Hf. repeat split.
  - now apply DictFacts.wf_filter.
  - intros k c _ Hg Hc.
    rewrite (get_filter_cases f k Hwf Hg). now rewrite Hf.
  - intros k c _ Hg. now apply DictFacts.get_filter in Hg.
  - intros k Hg. now apply get_filter_absent.
Qed.

Lemma preserved_remove (x : option string) (name : string) (d : Dict.t Info) :
  Dict.wf d ->
  (x = Some name \/
   exists c, Dict.get name d = Some c /\ guarded c = false) ->
  preserved_except x d (Dict.remove name d).
Proof.
  intros Hwf Hname. repeat split.
  - now apply DictFacts.wf_remove.
  - intros k c Hx Hg Hc.
    destruct (String.eqb_spec k name) as [->|Hne].
    + destruct Hname as [->|(c' & Hg' & Hc')]; [congruence|].
      congruence.
    + now rewrite DictFacts.get_remove_other.
  - intros k c _ Hg.
    destruct (String.eqb_spec k name) as [->|Hne].
    + rewrite DictFacts.get_remove_same in Hg by assumption. discriminate.
    + now rewrite DictFacts.get_remove_other in Hg.
  - intros k Hg. apply DictFacts.get_None. apply DictFacts.get_None in Hg.
    intros Hin. apply Hg. eapply DictFacts.keys_remove_incl; eassumption.
Qed.

Lemma frames_bind {A B} (x : option string) (m : M A) (k : A -> M B) :
  frames x m -> (forall a, frames x (k a)) -> frames x (bind m k).
Proof.
  intros Hm Hk self w Hwf.
  specialize (Hm self w Hwf).
  unfold bind, pool_after in *.
  destruct (m self w) as [[[a|e|] self'] w']; simpl in *; try assumption.
  eapply preserved_trans; [eassumption|].
  apply Hk. apply Hm.
Qed.

Lemma frames_same_conns {A} (x : option string) (m : M A) :
  (forall self w, _conns (pool_after (m self w)) = _conns self) ->
  frames x m.
Proof.
  intros H self w Hwf. rewrite H. now apply preserved_refl.
Qed.

Lemma frames_ret {A} (x : option string) (a : A) : frames x (ret a : M A).
Proof. now apply frames_same_conns. Qed.

Lemma frames_gets {A} (x : option string) (f : pool -> A) : frames x (gets f : M A).
Proof. now apply frames_same_conns. Qed.

Lemma frames_now (x : option string) : frames x (now : M Z).
Proof.
  apply frames_same_conns. intros self w. unfold now, pool_after.
  now destruct (datetime_now w).
Qed.

Lemma frames_sleep (x : option string) : frames x (sleep : M unit).
Proof. now apply frames_same_conns. Qed.

Lemma frames_lift {A} (x : option string) (f : World -> result A * World) :
  frames x (lift f : M A).
Proof.
  apply frames_same_conns. intros self w. unfold lift, pool_after.
  now destruct (f w).
Qed.

Lemma frames_unusable (x : option string) (db : Conn) : frames x (unusable db).
Proof. now apply frames_same_conns. Qed.

Lemma frames_modify (x : option string) (f : pool -> pool) :
  (forall self, _conns (f self) = _conns self) -> frames x (modify f : M unit).
Proof. intros H. apply frames_same_conns. intros self w. apply H. Qed.

Lemma frames_terminate (dbname : string) :
  frames (Some dbname) (_terminate_connection_unsafe dbname).
Proof.
  intros self w Hwf.
  destruct (Dict.get dbname (_conns self)) as [c|] eqn:E.
  - rewrite (terminate_present _ self w E). unfold pool_after; simpl.
    apply preserved_remove; auto.
  - rewrite (terminate_absent _ self w E). now apply preserved_refl.
Qed.

Lemma guarded_not_prunable (t : Z) (c : Info) :
  guarded c = true -> prunable t c = false.
Proof.
  unfold guarded, prunable.
  destruct (active c), (persistent c); simpl; intros; try discriminate;
    now rewrite ?andb_false_r.
Qed.

Lemma frames_prune (x : option string) : frames x prune_connections.
Proof.
  intros self w Hwf.
  rewrite (prune_connections_eq self w Hwf). unfold pool_after; simpl.
  apply preserved_filter; [assumption|].
  intros k c Hc. simpl. now rewrite guarded_not_prunable.
Qed.

Lemma frames_evict (x : option string) : frames x evict_lru.
Proof.
  intros self w Hwf.
  destruct (find evictable
              (sorted (fun i => last_accessed (snd i)) (_conns self)))
    as [[name c]|] eqn:Hf.
  - rewrite (evict_lru_some self w Hwf Hf). unfold pool_after; simpl.
    pose proof (find_sorted_least _ _ _ Hf) as (Hin & Hev & _).
    apply preserved_remove; [assumption|].
    right. exists c. split; [now apply DictFacts.In_get|].
    unfold evictable in Hev; simpl in Hev. unfold guarded.
    destruct (active c), (persistent c); simpl in *; congruence.
  - rewrite evict_lru_none; [now apply preserved_refl|].
    exact (proj1 (find_sorted_none _ _ _) Hf).
Qed.

Lemma prune_run (self : pool) (w : World) :
  Dict.wf (_conns self) ->
  exists self' w',
    prune_connections self w = (Return tt, self', w') /\
    Dict.wf (_conns self') /\
    max_conns self' = max_conns self /\
    connection_timeout self' = connection_timeout self /\
    connection_opened (_stats self') = connection_opened (_stats self).
Proof.
  intros Hwf. rewrite (prune_connections_eq self w Hwf).
  do 2 eexists. split; [reflexivity|]. simpl.
  split; [now apply DictFacts.wf_filter|auto].
Qed.

Lemma evict_run (self : pool) (w : World) :
  Dict.wf (_conns self) ->
  exists o self' w',
    evict_lru self w = (Return o, self', w') /\
    Dict.wf (_conns self') /\
    max_conns self' = max_conns self /\
    connection_timeout self' = connection_timeout self /\
    connection_opened (_stats self') = connection_opened (_stats self).
Proof.
  intros Hwf.
  destruct (find evictable
              (sorted (fun i => last_accessed (snd i)) (_conns self)))
    as [[name c]|] eqn:Hf.
  - rewrite (evict_lru_some self w Hwf Hf).
    do 3 eexists. split; [reflexivity|]. simpl.
    split; [now apply DictFacts.wf_remove|].
    destruct (fst (db_close (connection c) w)); auto.
  - rewrite evict_lru_none by exact (proj1 (find_sorted_none _ _ _) Hf).
    do 3 eexists. split; [reflexivity|]. auto.
Qed.

(** *** The admission loop *)

Lemma frames_check_timeout (x : option string) (m : Z) (tmo : option Z)
    (start : Z) :
  frames x (check_timeout m tmo start).
Proof.
  apply frames_same_conns. intros self w.
  unfold check_timeout, bind, now, raise, ret, pool_after.
  destruct tmo as [t|]; [|reflexivity].
  destruct (datetime_now w) as [t' w'].
  now destruct (elapsed_exceeds t start t').
Qed.

Lemma frames_free_space (x : option string) (fuel : nat) (m : Z)
    (tmo : option Z) (start : Z) :
  frames x (free_space fuel m tmo start).
Proof.
  induction fuel as [|fuel IH]; intros self w Hwf; simpl.
  - destruct (Z.of_nat (List.length (_conns self)) >=? m);
      now apply preserved_refl.
  - destruct (Z.of_nat (List.length (_conns self)) >=? m);
      [|now apply preserved_refl].
    revert self w Hwf.
    change (frames x
              (prune_connections ;;;
               evict_lru ;;;
               check_timeout m tmo start ;;;
               sleep ;;;
               free_space fuel m tmo start)).
    apply frames_bind; [apply frames_prune|intros _].
    apply frames_bind; [apply frames_evict|intros _].
    apply frames_bind; [apply frames_check_timeout|intros _].
    apply frames_bind; [apply frames_sleep|intros _].
    exact IH.
Qed.

(** One iteration of the loop, entered with the registry at capacity. *)
Lemma free_space_step (fuel : nat) (m : Z) (tmo : option Z) (start : Z)
    (self : pool) (w : World) :
  Z.of_nat (List.length (_conns self)) >= m ->
  free_space (S fuel) m tmo start self w =
    (prune_connections ;;;
     evict_lru ;;;
     check_timeout m tmo start ;;;
     sleep ;;;
     free_space fuel m tmo start) self w.
Proof.
  intros Hfull. simpl.
  destruct (Z.geb_spec (Z.of_nat (List.length (_conns self))) m); [reflexivity|lia].
Qed.

Lemma free_space_below (fuel : nat) (m : Z) (tmo : option Z) (start : Z)
    (self : pool) (w : World) :
  Z.of_nat (List.length (_conns self)) < m ->
  free_space fuel m tmo start self w = (Return tt, self, w).
Proof.
  intros Hbelow.
  destruct fuel; simpl;
    destruct (Z.geb_spec (Z.of_nat (List.length (_conns self))) m);
    try reflexivity; lia.
Qed.

Lemma free_space_iteration (fuel : nat) (m : Z) (tmo : option Z) (start : Z)
    (self self1 self2 : pool) (w w1 w2 : World) (o : option string) :
  Z.of_nat (List.length (_conns self)) >= m ->
  prune_connections self w = (Return tt, self1, w1) ->
  evict_lru self1 w1 = (Return o, self2, w2) ->
  free_space (S fuel) m tmo start self w =
    match tmo with
    | Some t =>
        if elapsed_exceeds t start (fst (datetime_now w2))
        then (Raise (ConnectionPoolFullError m t), self2, snd (datetime_now w2))
        else free_space fuel m tmo start self2
               (time_sleep (snd (datetime_now w2)))
    | None => free_space fuel m tmo start self2 (time_sleep w2)
    end.
Proof.
  intros Hfull E1 E2.
  rewrite free_space_step by assumption.
  unfold bind at 1. rewrite E1.
  unfold bind at 1. rewrite E2.
  unfold bind at 1. unfold check_timeout.
  destruct tmo as [t|].
  - unfold bind at 1. unfold now at 1.
    destruct (datetime_now w2) as [t' w3]; simpl.
    destruct (elapsed_exceeds t start t'); reflexivity.
  - reflexivity.
Qed.

(** What the loop can end with: a normal exit leaves the registry below the
    cap, and the one exception it raises is the pool-full error with the
    cap and the timeout it was given. *)
Lemma free_space_outcome (fuel : nat) (m : Z) (tmo : option Z) (start : Z) :
  forall (self : pool) (w : World),
    Dict.wf (_conns self) ->
    let r := free_space fuel m tmo start self w in
    match outcome r with
    | Return _ => Z.of_nat (List.length (_conns (pool_after r))) < m
    | Raise e => exists t, tmo = Some t /\ e = ConnectionPoolFullError m t
    | OutOfFuel => True
    end /\
    max_conns (pool_after r) = max_conns self /\
    connection_timeout (pool_after r) = connection_timeout self /\
    connection_opened (_stats (pool_after r)) = connection_opened (_stats self).
Proof.
  induction fuel as [|fuel IH]; intros self w Hwf; cbv zeta.
  - simpl.
    destruct (Z.geb_spec (Z.of_nat (List.length (_conns self))) m);
      unfold outcome, pool_after; simpl; auto.
  - destruct (Z.geb_spec (Z.of_nat (List.length (_conns self))) m) as [Hge|Hlt].
    2:{ rewrite free_space_below by assumption.
        unfold outcome, pool_after; simpl; auto. }
    destruct (prune_run self w Hwf) as (self1 & w1 & E1 & Hwf1 & Hm1 & Ht1 & Ho1).
    destruct (evict_run self1 w1 Hwf1)
      as (o & self2 & w2 & E2 & Hwf2 & Hm2 & Ht2 & Ho2).
    rewrite (@free_space_iteration fuel m tmo start self self1 self2 w w1 w2 o
               (Z.le_ge _ _ Hge) E1 E2).
    destruct tmo as [t|].
    + destruct (elapsed_exceeds t start (fst (datetime_now w2))).
      * unfold outcome, pool_after; simpl.
        split; [eauto|]. repeat split; congruence.
      * specialize (IH self2 (time_sleep (snd (datetime_now w2))) Hwf2).
        cbv zeta in IH. destruct IH as (IH1 & IH2 & IH3 & IH4).
        split; [exact IH1|]. repeat split; congruence.
    + specialize (IH self2 (time_sleep w2) Hwf2).
      cbv zeta in IH. destruct IH as (IH1 & IH2 & IH3 & IH4).
      split; [exact IH1|]. repeat split; congruence.
Qed.

(** A registry whose records are all in use or persistent is left alone by
    the sweep and the eviction. *)
Lemma prune_guarded (self : pool) (w : World) :
  Dict.wf (_conns self) ->
  (forall item, In item (_conns self) -> guarded (snd item) = true) ->
  prune_connections self w = (Return tt, self, snd (datetime_now w)).
Proof.
  intros Hwf Hall.
  rewrite (prune_connections_eq self w Hwf). cbv zeta.
  assert (Hrem : filter (fun i => prunable (fst (datetime_now w)) (snd i))
                   (_conns self) = []).
  { clear Hwf. induction (_conns self) as [|i d IH]; [reflexivity|].
    simpl. rewrite guarded_not_prunable by (apply Hall; now left).
    apply IH. intros item Hin. apply Hall. now right. }
  assert (Hkeep : filter (fun i => negb (prunable (fst (datetime_now w)) (snd i)))
                    (_conns self) = _conns self).
  { clear Hwf Hrem. induction (_conns self) as [|i d IH]; [reflexivity|].
    simpl. rewrite guarded_not_prunable by (apply Hall; now left).
    simpl. f_equal. apply IH. intros item Hin. apply Hall. now right. }
  rewrite Hrem, Hkeep. simpl.
  destruct self as [mx [o p c f] d tmo lg]; simpl.
  apply run_eq; try reflexivity.
  - apply stats_eq; lia.
  - apply app_nil_r.
Qed.

Lemma evict_guarded (self : pool) (w : World) :
  (forall item, In item (_conns self) -> guarded (snd item) = true) ->
  evict_lru self w = (Return None, self, w).
Proof.
  intros Hall. apply evict_lru_none.
  intros item Hin. specialize (Hall item Hin).
  unfold guarded in Hall. unfold evictable.
  destruct (active (snd item)), (persistent (snd item)); simpl in *;
    congruence.
Qed.

(** With every record in use or persistent and the registry at capacity,
    the loop waits until the first pass at which the timeout is exceeded and
    raises there, the pool untouched: fuel for that many passes is enough. *)
Lemma free_space_times_out (m t start : Z) (self : pool) (n : nat) :
  forall (w : World) (fuel : nat),
    Dict.wf (_conns self) ->
    (forall item, In item (_conns self) -> guarded (snd item) = true) ->
    Z.of_nat (List.length (_conns self)) >= m ->
    (forall i, (i < n)%nat ->
       elapsed_exceeds t start (pass_reading (idle_passes i w)) = false) ->
    elapsed_exceeds t start (pass_reading (idle_passes n w)) = true ->
    (n < fuel)%nat ->
    free_space fuel m (Some t) start self w =
      (Raise (ConnectionPoolFullError m t), self,
       snd (datetime_now (snd (datetime_now (idle_passes n w))))).
Proof.
  induction n as [|n IH]; intros w fuel Hwf Hall Hfull Hbefore Hat Hfuel;
    (destruct fuel as [|fuel]; [lia|]);
    rewrite (@free_space_iteration fuel m (Some t) start self self self
               w (snd (datetime_now w)) (snd (datetime_now w)) None Hfull
               (@prune_guarded self w Hwf Hall)
               (@evict_guarded self (snd (datetime_now w)) Hall)).
  - simpl in Hat. unfold pass_reading in Hat. now rewrite Hat.
  - pose proof (Hbefore O ltac:(lia)) as H0.
    simpl in H0. unfold pass_reading in H0. rewrite H0.
    apply IH; auto; [|lia].
    intros i Hi. apply (Hbefore (S i)). lia.
Qed.

Lemma admission_eq (fuel : nat) (tmo : option Z) (start : Z) (self : pool)
    (w : World) :
  admission fuel tmo start self w =
    match max_conns self with
    | Some m => free_space fuel m tmo start self w
    | None => (Return tt, self, w)
    end.
Proof.
  unfold admission, bind, gets. now destruct (max_conns self).
Qed.

Lemma frames_admission (x : option string) (fuel : nat) (tmo : option Z)
    (start : Z) :
  frames x (admission fuel tmo start).
Proof.
  intros self w Hwf. rewrite admission_eq.
  destruct (max_conns self); [now apply frames_free_space|].
  now apply preserved_refl.
Qed.

(** *** [_get_connection_raw] *)

Lemma register_connection_eq (dbname : string) (ttl_ms : Z) (db : Conn)
    (persistent' : bool) (self : pool) (w : World) :
  register_connection dbname ttl_ms db persistent' self w =
    (Raise missing_thread, self, snd (datetime_now (snd (datetime_now w)))).
Proof.
  unfold register_connection, bind, now, lift.
  destruct (datetime_now w) as [t w1]; simpl.
  destruct (datetime_now w1) as [t' w2]; reflexivity.
Qed.

Lemma open_connection_eq (fuel : nat) (dbname : string) (tmo : option Z)
    (start : Z) (startup_fn : option startup_hook) (self : pool) (w : World) :
  open_connection fuel dbname tmo start startup_fn self w =
    match admission fuel tmo start self w with
    | (Return _, self2, w2) =>
        let self3 := set_stats (incr_opened (_stats self2)) self2 in
        match connect_fn dbname w2 with
        | (Return db, w3) =>
            match startup_fn with
            | Some f =>
                match f db w3 with
                | (Return _, w4) => (Return db, self3, w4)
                | (Raise e, w4) => (Raise e, self3, w4)
                | (OutOfFuel, w4) => (OutOfFuel, self3, w4)
                end
            | None => (Return db, self3, w3)
            end
        | (Raise e, w3) => (Raise e, self3, w3)
        | (OutOfFuel, w3) => (OutOfFuel, self3, w3)
        end
    | (Raise e, self2, w2) => (Raise e, self2, w2)
    | (OutOfFuel, self2, w2) => (OutOfFuel, self2, w2)
    end.
Proof.
  unfold open_connection. unfold bind at 1.
  destruct (admission fuel tmo start self w) as [[[u|e|] self2] w2];
    try reflexivity.
  unfold bind, modify, lift, ret; simpl.
  destruct (connect_fn dbname w2) as [[db|e|] w3]; try reflexivity.
  destruct startup_fn as [f|]; [|reflexivity].
  destruct (f db w3) as [[u'|e|] w4]; reflexivity.
Qed.

Lemma frames_open_connection (x : option string) (fuel : nat)
    (dbname : string) (tmo : option Z) (start : Z)
    (startup_fn : option startup_hook) :
  frames x (open_connection fuel dbname tmo start startup_fn).
Proof.
  unfold open_connection.
  apply frames_bind; [apply frames_admission|intros _].
  apply frames_bind; [now apply frames_modify|intros _].
  apply frames_bind; [apply frames_lift|intros db].
  apply frames_bind; [|intros _; apply frames_ret].
  destruct startup_fn; [apply frames_lift|apply frames_ret].
Qed.

Lemma frames_pop (dbname : string) :
  frames (Some dbname)
    (modify (fun self : pool =>
               set_conns (Dict.remove dbname (_conns self)) self) : M unit).
Proof.
  intros self w Hwf. unfold modify, pool_after; simpl.
  apply preserved_remove; auto.
Qed.

Lemma frames_obtain_connection (fuel : nat) (dbname : string)
    (timeout : option Z) (startup_fn : option startup_hook) (persistent' : bool) :
  frames (Some dbname)
    (obtain_connection fuel dbname timeout startup_fn persistent').
Proof.
  unfold obtain_connection.
  apply frames_bind; [apply frames_gets|intros tmo].
  apply frames_bind; [apply frames_now|intros start].
  apply frames_bind; [apply frames_prune|intros _].
  apply frames_bind; [apply frames_gets|intros conn].
  apply frames_bind; [apply frames_pop|intros _].
  destruct conn as [c|].
  - apply frames_bind; [apply frames_unusable|intros bad].
    destruct bad; [|apply frames_ret].
    apply frames_bind; [apply frames_open_connection|intros db].
    apply frames_ret.
  - apply frames_bind; [apply frames_open_connection|intros db].
    apply frames_ret.
Qed.

Lemma frames_register_connection (x : option string) (dbname : string)
    (ttl_ms : Z) (db : Conn) (persistent' : bool) :
  frames x (register_connection dbname ttl_ms db persistent').
Proof.
  apply frames_same_conns. intros self w.
  now rewrite register_connection_eq.
Qed.

Lemma frames_get_connection_raw (fuel : nat) (dbname : string) (ttl_ms : Z)
    (timeout : option Z) (startup_fn : option startup_hook) (persistent' : bool) :
  frames (Some dbname)
    (_get_connection_raw fuel dbname ttl_ms timeout startup_fn persistent').
Proof.
  unfold _get_connection_raw.
  apply frames_bind; [apply frames_obtain_connection|intros p].
  apply frames_register_connection.
Qed.

(** No call of [_get_connection_raw] returns a connection: a call that
    gets as far as building the record raises there. *)
Lemma get_connection_raw_outcome (fuel : nat) (dbname : string) (ttl_ms : Z)
    (timeout : option Z) (startup_fn : option startup_hook) (persistent' : bool)
    (self : pool) (w : World) :
  let r := _get_connection_raw fuel dbname ttl_ms timeout startup_fn
             persistent' self w in
  let r0 := obtain_connection fuel dbname timeout startup_fn persistent' self w in
  outcome r =
    match outcome r0 with
    | Return _ => Raise missing_thread
    | Raise e => Raise e
    | OutOfFuel => OutOfFuel
    end /\
  _conns (pool_after r) = _conns (pool_after r0) /\
  _stats (pool_after r) = _stats (pool_after r0).
Proof.
  cbv zeta. unfold _get_connection_raw, bind.
  destruct (obtain_connection fuel dbname timeout startup_fn persistent' self w)
    as [[[p|e|] self1] w1]; unfold outcome, pool_after; simpl; auto.
  rewrite register_connection_eq. simpl. auto.
Qed.

Lemma obtain_connection_eq (fuel : nat) (dbname : string)
    (timeout : option Z) (startup_fn : option startup_hook) (persistent' : bool)
    (self : pool) (w : World) :
  Dict.wf (_conns self) ->
  obtain_connection fuel dbname timeout startup_fn persistent' self w =
    if must_open dbname self w then
      (db <- open_connection fuel dbname (effective_timeout timeout self)
               (started w) startup_fn ;;
       ret (db, persistent'))
        (popped dbname self w) (snd (swept self w))
    else
      match found dbname self w with
      | Some c =>
          (Return (connection c, persistent c),
           popped dbname self w, snd (swept self w))
      | None => (OutOfFuel, self, w)
      end.
Proof.
  intros Hwf.
  unfold must_open, found, popped, swept, started.
  unfold obtain_connection.
  unfold bind at 1. unfold gets at 1.
  unfold bind at 1. unfold now at 1.
  destruct (datetime_now w) as [start w0]; simpl fst; simpl snd.
  unfold bind at 1.
  destruct (prune_run self w0 Hwf) as (self1 & w1 & E & _).
  rewrite E. unfold pool_after, world_after; simpl fst; simpl snd.
  unfold bind at 1. unfold gets at 1.
  unfold bind at 1. unfold modify at 1.
  destruct (Dict.get dbname (_conns self1)) as [c|]; [|reflexivity].
  unfold bind at 1. unfold unusable at 1.
  destruct (db_closed (connection c) w1 || db_broken (connection c) w1);
    reflexivity.
Qed.

Lemma swept_wf (self : pool) (w : World) :
  Dict.wf (_conns self) -> Dict.wf (_conns (fst (swept self w))).
Proof.
  intros Hwf. unfold swept.
  destruct (prune_run self (snd (datetime_now w)) Hwf) as (self1 & w1 & E & H & _).
  now rewrite E.
Qed.

Lemma popped_wf (dbname : string) (self : pool) (w : World) :
  Dict.wf (_conns self) -> Dict.wf (_conns (popped dbname self w)).
Proof.
  intros Hwf. unfold popped; simpl.
  apply DictFacts.wf_remove. now apply swept_wf.
Qed.

Lemma popped_absent (dbname : string) (self : pool) (w : World) :
  Dict.wf (_conns self) ->
  Dict.get dbname (_conns (popped dbname self w)) = None.
Proof.
  intros Hwf. unfold popped; simpl.
  apply DictFacts.get_remove_same. now apply swept_wf.
Qed.

Lemma get_connection_raw_admission_failure (fuel : nat) (dbname : string)
    (ttl_ms : Z) (timeout : option Z) (startup_fn : option startup_hook)
    (persistent' : bool) (self : pool) (w : World) (e : exn) :
  Dict.wf (_conns self) ->
  must_open dbname self w = true ->
  outcome (admission_of fuel dbname timeout self w) = Raise e ->
  _get_connection_raw fuel dbname ttl_ms timeout startup_fn persistent' self w
    = (Raise e, pool_after (admission_of fuel dbname timeout self w),
       world_after (admission_of fuel dbname timeout self w)).
Proof.
  intros Hwf Hopen Hraise.
  unfold _get_connection_raw. unfold bind at 1.
  rewrite obtain_connection_eq by assumption. rewrite Hopen.
  unfold bind at 1. rewrite open_connection_eq.
  unfold admission_of, outcome, pool_after, world_after in *.
  destruct (admission fuel (effective_timeout timeout self) (started w)
              (popped dbname self w) (snd (swept self w)))
    as [[[u|e'|] self2] w2]; simpl in *; try discriminate.
  congruence.
Qed.

Lemma run_op_preserved (fuel : nat) (o : op) (self : pool) (w : World) :
  Dict.wf (_conns self) ->
  preserved_except
    (match o with Acquire dbname _ _ _ _ => Some dbname | _ => None end)
    (_conns self) (_conns (fst (run_op fuel o (self, w)))).
Proof.
  intros Hwf. destruct o; simpl.
  - now apply frames_get_connection_raw.
  - now apply frames_prune.
  - now apply frames_evict.
Qed.

Lemma run_ops_keep (fuel : nat) (ops : list op) :
  forall (self : pool) (w : World) (k : string) (c : Info),
    Dict.wf (_conns self) ->
    Dict.get k (_conns self) = Some c -> guarded c = true ->
    ~ In k (acquired ops) ->
    Dict.get k (_conns (fst (run_ops fuel ops (self, w)))) = Some c.
Proof.
  induction ops as [|o ops IH]; intros self w k c Hwf Hg Hc Hk; [assumption|].
  unfold run_ops; simpl fold_left. fold (run_ops fuel ops).
  pose proof (@run_op_preserved fuel o self w Hwf) as (Hwf' & Hkeep & _).
  destruct (run_op fuel o (self, w)) as [self' w'] eqn:E; simpl in *.
  apply IH; auto.
  - apply Hkeep; auto.
    destruct o; try discriminate.
    intros [= ->]. apply Hk. now left.
  - intros Hin. apply Hk. destruct o; simpl; auto.
Qed.

Lemma open_then_pair_eq (fuel : nat) (dbname : string) (tmo : option Z)
    (start : Z) (startup_fn : option startup_hook) (persistent' : bool)
    (self : pool) (w : World) :
  (db <- open_connection fuel dbname tmo start startup_fn ;;
   ret (db, persistent')) self w =
    match open_connection fuel dbname tmo start startup_fn self w with
    | (Return db, self', w') => (Return (db, persistent'), self', w')
    | (Raise e, self', w') => (Raise e, self', w')
    | (OutOfFuel, self', w') => (OutOfFuel, self', w')
    end.
Proof.
  unfold bind, ret.
  now destruct (open_connection fuel dbname tmo start startup_fn self w)
    as [[[db|e|] self'] w'].
Qed.

(** Whatever its outcome, an acquire leaves no record for its key. *)
Lemma get_connection_raw_drops_key (fuel : nat) (dbname : string) (ttl_ms : Z)
    (timeout : option Z) (startup_fn : option startup_hook)
    (persistent' : bool) (self : pool) (w : World) :
  Dict.wf (_conns self) ->
  Dict.get dbname
    (_conns (pool_after (_get_connection_raw fuel dbname ttl_ms timeout
                           startup_fn persistent' self w))) = None.
Proof.
  intros Hwf.
  destruct (get_connection_raw_outcome fuel dbname ttl_ms timeout startup_fn
              persistent' self w) as (_ & -> & _).
  rewrite obtain_connection_eq by assumption.
  destruct (must_open dbname self w) eqn:Hopen.
  - assert (Hf : frames None
                   (db <- open_connection fuel dbname
                            (effective_timeout timeout self) (started w)
                            startup_fn ;;
                    (ret (db, persistent') : M (Conn * bool)))).
    { apply frames_bind; [apply frames_open_connection|intros db].
      apply frames_ret. }
    destruct (Hf (popped dbname self w) (snd (swept self w))
                (@popped_wf dbname self w Hwf)) as (_ & _ & _ & Habs).
    apply Habs. now apply popped_absent.
  - unfold must_open in Hopen.
    destruct (found dbname self w) as [c|]; [|discriminate].
    unfold pool_after; simpl fst; simpl snd. now apply popped_absent.
Qed.


(** *** Leaving the [with] statement *)

Lemma get_connection_exit_eq (dbname : string) (db : Conn)
    (body : body_outcome) (self : pool) (w : World) :
  get_connection_exit dbname db body self w =
    match body with
    | BodyRaised e =>
        if is_InterruptedError e then
          (Raise e,
           pool_after (_terminate_connection_unsafe dbname self w),
           world_after (_terminate_connection_unsafe dbname self w))
        else (Raise e, self, w)
    | BodyCompleted =>
        if db_broken db w then
          (Return tt,
           pool_after (_terminate_connection_unsafe dbname self w),
           world_after (_terminate_connection_unsafe dbname self w))
        else
          match Dict.get dbname (_conns self) with
          | Some c =>
              (Return tt,
               set_conns (Dict.set dbname (set_active false c) (_conns self)) self,
               w)
          | None => (Return tt, self, w)
          end
    end.
Proof.
  unfold get_connection_exit.
  destruct body as [|e].
  - unfold bind at 1.
    destruct (db_broken db w).
    + destruct (Dict.get dbname (_conns self)) as [c|] eqn:E.
      * unfold bind. rewrite (terminate_present _ self w E). reflexivity.
      * unfold bind. rewrite (terminate_absent _ self w E). reflexivity.
    + unfold bind, gets, modify, ret.
      now destruct (Dict.get dbname (_conns self)).
  - destruct (is_InterruptedError e); [|reflexivity].
    destruct (Dict.get dbname (_conns self)) as [c|] eqn:E.
    + unfold bind. rewrite (terminate_present _ self w E). reflexivity.
    + unfold bind. rewrite (terminate_absent _ self w E). reflexivity.
Qed.

(** An exception of the body other than [InterruptedError] goes through
    [get_connection] without any cleanup. *)
Lemma get_connection_exit_other_exception (dbname : string) (db : Conn)
    (e : exn) (self : pool) (w : World) :
  is_InterruptedError e = false ->
  get_connection_exit dbname db (BodyRaised e) self w = (Raise e, self, w).
Proof.
  intros He. rewrite get_connection_exit_eq. now rewrite He.
Qed.

(** An acquire that finds a usable record for its key raises at line 129
    and leaves the registry without the record. *)
Lemma get_connection_raw_reuse (fuel : nat) (dbname : string) (ttl_ms : Z)
    (timeout : option Z) (startup_fn : option startup_hook)
    (persistent' : bool) (self : pool) (w : World) :
  Dict.wf (_conns self) ->
  must_open dbname self w = false ->
  let r := _get_connection_raw fuel dbname ttl_ms timeout startup_fn
             persistent' self w in
  outcome r = Raise missing_thread /\
  pool_after r = popped dbname self w /\
  Dict.get dbname (_conns (pool_after r)) = None.
Proof.
  intros Hwf Hopen r.
  assert (Er : r = (Raise missing_thread, popped dbname self w,
                    snd (datetime_now (snd (datetime_now (snd (swept self w))))))).
  { subst r. unfold _get_connection_raw. unfold bind at 1.
    rewrite obtain_connection_eq by assumption. rewrite Hopen.
    unfold must_open in Hopen.
    destruct (found dbname self w) as [c|]; [|discriminate].
    now rewrite register_connection_eq. }
  rewrite Er. unfold outcome, pool_after; simpl.
  repeat split. now apply popped_absent.
Qed.

Lemma frames_get_connection_exit (dbname : string) (db : Conn)
    (body : body_outcome) :
  frames (Some dbname) (get_connection_exit dbname db body).
Proof.
  intros self w Hwf.
  rewrite get_connection_exit_eq.
  pose proof (@frames_terminate dbname self w Hwf) as Hterm.
  destruct body as [|e].
  - destruct (db_broken db w); [exact Hterm|].
    destruct (Dict.get dbname (_conns self)) as [c|] eqn:E;
      [|now apply preserved_refl].
    unfold pool_after; simpl. repeat split.
    + unfold Dict.wf. now rewrite (DictFacts.keys_set_present _ _ _ E).
    + intros k c' Hk Hg _. rewrite DictFacts.get_set_other; congruence.
    + intros k c' Hk Hg. rewrite DictFacts.get_set_other in Hg; congruence.
    + intros k Hg. rewrite DictFacts.get_set_other; congruence.
  - destruct (is_InterruptedError e); [exact Hterm|].
    now apply preserved_refl.
Qed.

(** Sweeps, evictions and acquires add no record and alter none: a record
    found afterwards was there before, the same.  In particular none of
    them turns [active] back to false. *)
Lemma run_op_adds_nothing (fuel : nat) (o : op) (self : pool) (w : World)
    (k : string) (c : Info) :
  Dict.wf (_conns self) ->
  Dict.get k (_conns (fst (run_op fuel o (self, w)))) = Some c ->
  Dict.get k (_conns self) = Some c.
Proof.
  intros Hwf Hg.
  pose proof (@run_op_preserved fuel o self w Hwf) as (_ & _ & Hold & _).
  destruct o as [dbname ttl_ms timeout startup_fn persistent'| |];
    try (apply Hold; [discriminate|assumption]).
  destruct (String.eqb_spec k dbname) as [->|Hne].
  - simpl in Hg. rewrite get_connection_raw_drops_key in Hg by assumption.
    discriminate.
  - apply Hold; [congruence|assumption].
Qed.

Lemma run_ops_wf (fuel : nat) (ops : list op) :
  forall (self : pool) (w : World),
    Dict.wf (_conns self) ->
    Dict.wf (_conns (fst (run_ops fuel ops (self, w)))).
Proof.
  induction ops as [|o ops IH]; intros self w Hwf; [assumption|].
  unfold run_ops; simpl fold_left. fold (run_ops fuel ops).
  pose proof (@run_op_preserved fuel o self w Hwf) as (Hwf' & _).
  destruct (run_op fuel o (self, w)) as [self' w']; simpl in *.
  now apply IH.
Qed.

End PoolFacts.

(** ** The specification, claim by claim *)

Ltac solve_wf :=
  unfold Dict.wf; simpl; repeat constructor; simpl; intuition discriminate.

Section Claims.

Context {World Conn : Type} {env : Env World Conn}.

Local Abbreviation Info := (ConnectionInfo Conn).
Local Abbreviation pool := (Pool Conn).
Local Abbreviation M := (@M World Conn).

Notation "x <- m ;; k" := (bind m (fun x => k))
  (at level 61, m at next level, right associativity).
Notation "m ;;; k" := (bind m (fun _ => k))
  (at level 61, right associativity).

(** C2, amended.  [prune_connections] always returns; it removes a record
    from the registry and closes its connection if and only if the record
    has [active = false], [persistent = false] and a [deadline] strictly
    before the instant read at the start of the sweep.  Every other record,
    whether busy, persistent or not yet past its deadline, stays in the
    registry unchanged and in place; [close()] is called on the connections
    of the removed records and on no other, and the pruned counter grows by
    the number of removed records. *)
Theorem prune_connections_removes_iff (self : pool) (w : World) :
  Dict.wf (_conns self) ->
  let t := fst (datetime_now w) in
  let r := prune_connections self w in
  let removed := filter (fun i => prunable t (snd i)) (_conns self) in
  outcome r = Return tt /\
  (forall k c, Dict.get k (_conns self) = Some c ->
     (Dict.get k (_conns (pool_after r)) = None <->
        active c = false /\ persistent c = false /\ deadline c < t) /\
     (Dict.get k (_conns (pool_after r)) <> None ->
        Dict.get k (_conns (pool_after r)) = Some c)) /\
  (forall k, Dict.get k (_conns self) = None ->
     Dict.get k (_conns (pool_after r)) = None) /\
  _conns (pool_after r)
    = filter (fun i => negb (prunable t (snd i))) (_conns self) /\
  world_after r = closes removed (snd (datetime_now w)) /\
  connection_pruned (_stats (pool_after r))
    = connection_pruned (_stats self) + Z.of_nat (List.length removed).
Proof.
  intros Hwf; cbv zeta.
  rewrite (prune_connections_eq self w Hwf).
  unfold outcome, pool_after, world_after; simpl.
  split; [reflexivity|].
  split; [|split; [|repeat split]].
  - intros k c Hg.
    rewrite (get_filter_cases _ _ Hwf Hg). simpl.
    destruct (prunable (fst (datetime_now w)) c) eqn:E; simpl.
    + apply prunable_iff in E. split; [tauto|]. intros H; now elim H.
    + split; [|reflexivity].
      split; [discriminate|].
      intros H. apply prunable_iff in H. congruence.
  - intros k Hg. now apply get_filter_absent.
Qed.


(** C3.  [evict_lru] always returns.  When no record is both idle and
    non-persistent (the registry may be empty) it returns [None] and leaves
    the pool, its counters included, and the world exactly as they were.
    Otherwise it returns the key of a record that is idle and
    non-persistent and whose [last_accessed] is no greater than that of any
    other idle, non-persistent record (of several with that same
    [last_accessed], the first in registry order); it removes exactly that
    record, calls [close()] on its connection and on no other, and counts
    the close in the closed or the closed-failed counter. *)
Theorem evict_lru_removes_least_recently_used (self : pool) (w : World) :
  Dict.wf (_conns self) ->
  let r := evict_lru self w in
  ((forall k c, Dict.get k (_conns self) = Some c ->
      active c = true \/ persistent c = true) /\
   r = (Return None, self, w))
  \/
  (exists name c,
     outcome r = Return (Some name) /\
     Dict.get name (_conns self) = Some c /\
     active c = false /\ persistent c = false /\
     (forall k' c', Dict.get k' (_conns self) = Some c' ->
        active c' = false -> persistent c' = false ->
        last_accessed c <= last_accessed c') /\
     find (fun i => (last_accessed (snd i) =? last_accessed c) && evictable i)
       (_conns self) = Some (name, c) /\
     _conns (pool_after r) = Dict.remove name (_conns self) /\
     Dict.get name (_conns (pool_after r)) = None /\
     (forall k', k' <> name ->
        Dict.get k' (_conns (pool_after r)) = Dict.get k' (_conns self)) /\
     world_after r = snd (db_close (connection c) w) /\
     _stats (pool_after r)
       = (if fst (db_close (connection c) w)
          then incr_closed (_stats self)
          else incr_closed_failed (_stats self))).
Proof.
  intros Hwf; cbv zeta.
  destruct (find evictable
              (sorted (fun i => last_accessed (snd i)) (_conns self)))
    as [[name c]|] eqn:Hf.
  - right. exists name, c.
    rewrite (evict_lru_some _ w Hwf Hf).
    pose proof (find_sorted_least _ _ _ Hf) as (Hin & Hev & Hleast).
    apply evictable_iff in Hev as [Ha Hp]. simpl in Ha, Hp.
    pose proof (find_sorted_first_tie _ _ _ Hf) as Htie.
    unfold outcome, pool_after, world_after; simpl.
    repeat split; auto.
    + now apply DictFacts.In_get.
    + intros k' c' Hg Ha' Hp'.
      apply (Hleast (k', c')); [now apply DictFacts.get_In|].
      apply evictable_iff; auto.
    + now apply DictFacts.get_remove_same.
    + intros k' Hne. now apply DictFacts.get_remove_other.
  - left.
    pose proof (proj1 (find_sorted_none _ _ _) Hf) as Hall.
    split.
    + intros k c Hg.
      specialize (Hall (k, c) (DictFacts.get_In _ _ Hg)).
      unfold evictable in Hall; simpl in Hall.
      destruct (active c), (persistent c); simpl in Hall; auto; discriminate.
    + now apply evict_lru_none.
Qed.

(** C8.  [close_all_connections] always returns a boolean and never raises.
    It calls [close()] on the connection of every tracked record, in
    registry order and whatever the [active] and [persistent] flags, going
    on after a close that raises; afterwards the registry is empty.  It
    returns [True] if and only if no close raised.  Every close that raised
    is counted in [connection_closed_failed] and logged, every other one is
    counted in [connection_closed]. *)
Theorem close_all_connections_closes_everything (self : pool) (w : World) :
  Dict.wf (_conns self) ->
  let r := close_all_connections self w in
  let failed := close_failures (_conns self) w in
  exists success : bool,
    outcome r = Return success /\
    (success = true <-> failed = []) /\
    _conns (pool_after r) = [] /\
    world_after r = closes (_conns self) w /\
    connection_closed_failed (_stats (pool_after r))
      = connection_closed_failed (_stats self) + Z.of_nat (List.length failed) /\
    connection_closed (_stats (pool_after r))
      = connection_closed (_stats self)
        + Z.of_nat (List.length (_conns self)) - Z.of_nat (List.length failed) /\
    connection_opened (_stats (pool_after r)) = connection_opened (_stats self) /\
    connection_pruned (_stats (pool_after r)) = connection_pruned (_stats self) /\
    _log (pool_after r) = _log self ++ failed.
Proof.
  intros Hwf; cbv zeta.
  unfold close_all_connections, bind, gets.
  destruct self as [mx st d tmo lg]; simpl in *.
  rewrite (close_each_eq true mx st tmo lg w Hwf). cbv zeta.
  unfold outcome, pool_after, world_after; simpl.
  eexists; split; [reflexivity|].
  repeat split; auto.
  - destruct (close_failures d w); [reflexivity|discriminate].
  - intros ->. reflexivity.
Qed.


(** C9.  As the module is written no lease is ever granted.  Entering
    [get_connection] raises [NameError] for the unbound name [startup_fn]
    before anything else happens, so the body of a [with] statement never
    runs and the pool and the world are untouched.  The raw acquisition,
    called directly, never returns a connection either: it builds
    [ConnectionInfo] without the required [thread], so every call that gets
    that far raises [TypeError], and after any call the registry holds no
    record for the key. *)
Theorem get_connection_never_yields
    (fuel : nat) (dbname : string) (ttl_ms : Z) (timeout : option Z)
    (persistent' : bool) (self : pool) (w : World) :
  get_connection_enter fuel dbname ttl_ms timeout persistent' self w
    = (Raise (NameError "startup_fn"), self, w) /\
  (forall (A : Type) (body : Conn -> M A),
     with_get_connection fuel dbname ttl_ms timeout persistent' body self w
       = (Raise (NameError "startup_fn"), self, w)) /\
  (forall (startup_fn : option startup_hook) (db : Conn),
     outcome (_get_connection_raw fuel dbname ttl_ms timeout startup_fn
                persistent' self w) <> Return db) /\
  (forall (db : Conn) (t t' : Z),
     ConnectionInfo_init db t true t' None persistent' = Raise missing_thread) /\
  (forall (db : Conn),
     outcome (register_connection dbname ttl_ms db persistent' self w)
       = Raise missing_thread /\
     pool_after (register_connection dbname ttl_ms db persistent' self w) = self) /\
  (forall (startup_fn : option startup_hook),
     Dict.wf (_conns self) ->
     Dict.get dbname
       (_conns (pool_after (_get_connection_raw fuel dbname ttl_ms timeout
                              startup_fn persistent' self w))) = None).
Proof.
  split; [reflexivity|]. split; [reflexivity|].
  split; [|split; [reflexivity|split]].
  3:{ intros startup_fn Hwf. now apply get_connection_raw_drops_key. }
  - intros startup_fn db.
    destruct (get_connection_raw_outcome fuel dbname ttl_ms timeout startup_fn
                persistent' self w) as (H & _).
    rewrite H.
    destruct (outcome (obtain_connection fuel dbname timeout startup_fn
                         persistent' self w)); discriminate.
  - intros db. now rewrite register_connection_eq.
Qed.

(** C4, amended.  When a maximum is configured and an acquire has to open
    a connection with the registry at or above it, the admission step of
    the acquire can fail only with the pool-full error (the acquire itself
    can fail later, when the factory or the startup hook raises).  The
    error carries the configured maximum and the timeout in force, which is
    the caller's, or the configured connection timeout when the caller
    gives none or [0]; [_get_connection_raw] passes the error on unchanged.
    In every pass of the loop, entered with the registry at or above the
    maximum, the error is raised after the sweep and the eviction exactly
    when a timeout is in force and the time elapsed since the start of the
    call exceeds it; otherwise the pass sleeps and the registry is tested
    again.  With no maximum configured admission returns at once: no sweep,
    no eviction, no look at the clock and no sleep.  The loop does end in
    the error when nothing can be freed: with every record in use or
    persistent, fuel for the passes up to the first one at which the
    timeout is exceeded is enough for the error to be raised there, the
    registry untouched. *)
Theorem admission_fails_only_when_timed_out
    (fuel : nat) (dbname : string) (timeout : option Z)
    (self : pool) (w : World) :
  Dict.wf (_conns self) ->
  let tmo := effective_timeout timeout self in
  let r := admission_of fuel dbname timeout self w in
  tmo = match timeout with
        | Some t => if t =? 0 then connection_timeout self else Some t
        | None => connection_timeout self
        end /\
  (forall e, outcome r = Raise e ->
     exists m t,
       max_conns self = Some m /\ tmo = Some t /\
       e = ConnectionPoolFullError m t) /\
  (forall e ttl_ms startup_fn persistent',
     must_open dbname self w = true -> outcome r = Raise e ->
     _get_connection_raw fuel dbname ttl_ms timeout startup_fn persistent' self w
       = (Raise e, pool_after r, world_after r)) /\
  (max_conns self = None ->
     r = (Return tt, popped dbname self w, snd (swept self w))) /\
  (forall (m : Z) (start : Z) (n : nat) (s : pool) (w' : World),
     Dict.wf (_conns s) ->
     Z.of_nat (List.length (_conns s)) >= m ->
     let r1 := (prune_connections ;;; evict_lru) s w' in
     let t' := fst (datetime_now (world_after r1)) in
     let w'' := snd (datetime_now (world_after r1)) in
     free_space (S n) m tmo start s w' =
       match tmo with
       | Some t =>
           if seconds t <? t' - start
           then (Raise (ConnectionPoolFullError m t), pool_after r1, w'')
           else free_space n m tmo start (pool_after r1) (time_sleep w'')
       | None =>
           free_space n m tmo start (pool_after r1) (time_sleep (world_after r1))
       end) /\
  (forall (m t : Z) (n : nat),
     max_conns self = Some m -> tmo = Some t ->
     (forall item, In item (_conns (popped dbname self w)) ->
        guarded (snd item) = true) ->
     Z.of_nat (List.length (_conns (popped dbname self w))) >= m ->
     (forall i, (i < n)%nat ->
        (seconds t <? pass_reading (idle_passes i (snd (swept self w)))
                        - started w) = false) ->
     (seconds t <? pass_reading (idle_passes n (snd (swept self w)))
                     - started w) = true ->
     (n < fuel)%nat ->
     r = (Raise (ConnectionPoolFullError m t), popped dbname self w,
          snd (datetime_now
                 (snd (datetime_now (idle_passes n (snd (swept self w)))))))).
Proof.
  intros Hwf; cbv zeta.
  assert (Hm : max_conns (popped dbname self w) = max_conns self).
  { unfold popped, swept; simpl.
    destruct (prune_run self (snd (datetime_now w)) Hwf)
      as (self1 & w1 & E & _ & Hm & _).
    now rewrite E. }
  split; [|split; [|split; [|split; [|split]]]].
  6:{ intros m t n Hmax Htmo Hall Hfull Hbefore Hat Hfuel.
      unfold admission_of. rewrite admission_eq, Hm, Hmax, Htmo.
      apply free_space_times_out with (n := n); auto.
      now apply popped_wf. }
  - unfold effective_timeout, truthy.
    destruct timeout as [t|]; [|reflexivity].
    now destruct (t =? 0).
  - intros e He.
    unfold admission_of in *. rewrite admission_eq in He.
    rewrite Hm in He.
    destruct (max_conns self) as [m|]; [|discriminate].
    pose proof (@free_space_outcome _ _ _ fuel m
                  (effective_timeout timeout self) (started w)
                  (popped dbname self w) (snd (swept self w))
                  (@popped_wf _ _ _ dbname self w Hwf))
      as (Hout & _).
    cbv zeta in Hout. rewrite He in Hout.
    destruct Hout as (t & Ht & ->). eauto.
  - intros e ttl_ms startup_fn persistent' Hopen He.
    now apply get_connection_raw_admission_failure.
  - intros Hnone.
    unfold admission_of. rewrite admission_eq.
    now rewrite Hm, Hnone.
  - intros m start n s w' Hs Hfull.
    destruct (prune_run s w' Hs) as (s1 & w1 & E1 & Hwf1 & _).
    destruct (evict_run s1 w1 Hwf1) as (o & s2 & w2 & E2 & _).
    rewrite (@free_space_iteration _ _ _ n m (effective_timeout timeout self)
               start s s1 s2 w' w1 w2 o Hfull E1 E2).
    unfold bind. rewrite E1, E2. unfold pool_after, world_after; simpl.
    reflexivity.
Qed.

(** C5.  A record whose [persistent] flag is true is never removed by
    [prune_connections], whatever its deadline, and never chosen by
    [evict_lru], whatever its [last_accessed]: after either call it is in
    the registry unchanged.  This holds in every state that a sequence of
    acquires, sweeps and evictions can reach, and for the sweeps and
    evictions that an acquire runs itself: the sweep that opens an acquire
    of the record's own key leaves the record to be found, and across any
    sequence of acquires, sweeps and evictions the record is displaced by
    nothing but an acquire of its own key. *)
Theorem persistent_records_are_immune (self : pool) (w : World) :
  Dict.wf (_conns self) ->
  (forall k c, Dict.get k (_conns self) = Some c -> persistent c = true ->
     Dict.get k (_conns (pool_after (prune_connections self w))) = Some c) /\
  (forall k c, Dict.get k (_conns self) = Some c -> persistent c = true ->
     outcome (evict_lru self w) <> Return (Some k) /\
     Dict.get k (_conns (pool_after (evict_lru self w))) = Some c) /\
  (forall k c, Dict.get k (_conns self) = Some c -> persistent c = true ->
     found k self w = Some c) /\
  (forall fuel ops, Dict.wf (_conns (fst (run_ops fuel ops (self, w))))) /\
  (forall fuel ops k c,
     Dict.get k (_conns self) = Some c -> persistent c = true ->
     ~ In k (acquired ops) ->
     Dict.get k (_conns (fst (run_ops fuel ops (self, w)))) = Some c).
Proof.
  intros Hwf.
  assert (Hguard : forall c : Info, persistent c = true -> guarded c = true).
  { intros c Hp. unfold guarded. rewrite Hp. apply orb_true_r. }
  split; [|split; [|split; [|split]]].
  - intros k c Hg Hp.
    destruct (@frames_prune _ _ _ None self w Hwf) as (_ & Hkeep & _).
    apply Hkeep; auto. discriminate.
  - intros k c Hg Hp. split.
    + destruct (find evictable
                  (sorted (fun i => last_accessed (snd i)) (_conns self)))
        as [[name c']|] eqn:Hf.
      * rewrite (evict_lru_some self w Hwf Hf). unfold outcome; simpl.
        intros [= ->].
        pose proof (find_sorted_least _ _ _ Hf) as (Hin & Hev & _).
        apply DictFacts.In_get in Hin; [|assumption].
        assert (c' = c) by congruence; subst c'.
        unfold evictable in Hev; simpl in Hev.
        rewrite Hp in Hev. now rewrite andb_false_r in Hev.
      * rewrite evict_lru_none by exact (proj1 (find_sorted_none _ _ _) Hf).
        discriminate.
    + destruct (@frames_evict _ _ _ None self w Hwf) as (_ & Hkeep & _).
      apply Hkeep; auto. discriminate.
  - intros k c Hg Hp. unfold found, swept. cbn [fst].
    destruct (@frames_prune _ _ _ None self (snd (datetime_now w)) Hwf)
      as (_ & Hkeep & _).
    apply Hkeep; auto. discriminate.
  - intros fuel ops. now apply run_ops_wf.
  - intros fuel ops k c Hg Hp Hk.
    apply run_ops_keep; auto.
Qed.

(** C10, amended.  When an acquire has to open a connection and the
    factory, or the startup hook run on the new connection, raises, the
    exception reaches the caller and the pool is left as the sweep that
    opens the acquire and the admission step made it, with the record of the
    key popped and the opened counter one higher: no record for the key
    remains, the records that were in use or persistent are all there
    unchanged, no record has been added or altered, and [close()] has been
    called by the sweep and the admission step only, so the popped record's
    connection is not closed by the pop.  With no maximum configured the
    admission step does nothing and the pool is exactly the swept pool
    without the key and with the opened counter incremented. *)
Theorem failed_open_leaves_no_record
    (fuel : nat) (dbname : string) (ttl_ms : Z) (timeout : option Z)
    (startup_fn : option startup_hook) (persistent' : bool)
    (self : pool) (w w2 : World) (e : exn) :
  Dict.wf (_conns self) ->
  must_open dbname self w = true ->
  let r1 := admission_of fuel dbname timeout self w in
  outcome r1 = Return tt ->
  (connect_fn dbname (world_after r1) = (Raise e, w2) \/
   exists db w3 f,
     connect_fn dbname (world_after r1) = (Return db, w3) /\
     startup_fn = Some f /\ f db w3 = (Raise e, w2)) ->
  let r := _get_connection_raw fuel dbname ttl_ms timeout startup_fn
             persistent' self w in
  r = (Raise e,
       set_stats (incr_opened (_stats (pool_after r1))) (pool_after r1), w2) /\
  Dict.get dbname (_conns (pool_after r)) = None /\
  connection_opened (_stats (pool_after r))
    = connection_opened (_stats self) + 1 /\
  (forall k c, k <> dbname -> Dict.get k (_conns self) = Some c ->
     guarded c = true -> Dict.get k (_conns (pool_after r)) = Some c) /\
  (forall k c, Dict.get k (_conns (pool_after r)) = Some c ->
     Dict.get k (_conns self) = Some c) /\
  (max_conns self = None ->
     pool_after r1 = popped dbname self w /\
     world_after r1 = snd (swept self w) /\
     _stats (pool_after r) = incr_opened (_stats (fst (swept self w))) /\
     _log (pool_after r) = _log (fst (swept self w))).
Proof.
  intros Hwf Hopen r1 Hadm Hfail r.
  assert (Er : r = (Raise e,
                    set_stats (incr_opened (_stats (pool_after r1)))
                      (pool_after r1), w2)).
  { subst r r1. unfold _get_connection_raw. unfold bind at 1.
    rewrite obtain_connection_eq by assumption. rewrite Hopen.
    unfold bind at 1. rewrite open_connection_eq.
    unfold admission_of, outcome, pool_after, world_after in *.
    destruct (admission fuel (effective_timeout timeout self) (started w)
                (popped dbname self w) (snd (swept self w)))
      as [[[u|e'|] self2] w2']; simpl in *; try discriminate.
    destruct Hfail as [Hc|(db & w3 & f & Hc & -> & Hf)]; rewrite Hc.
    - reflexivity.
    - rewrite Hf. reflexivity. }
  pose proof (@frames_get_connection_raw _ _ _ fuel dbname ttl_ms timeout
                startup_fn persistent' self w Hwf) as (Hwf' & Hkeep & Hold & Habs).
  fold r in Hwf', Hkeep, Hold, Habs.
  assert (Hgone : Dict.get dbname (_conns (pool_after r)) = None).
  { rewrite Er. unfold pool_after; simpl.
    pose proof (@frames_admission _ _ _ None fuel
                  (effective_timeout timeout self) (started w)
                  (popped dbname self w) (snd (swept self w))
                  (@popped_wf _ _ _ dbname self w Hwf)) as (_ & _ & _ & Habs').
    apply Habs'. now apply popped_absent. }
  assert (Hm : max_conns (popped dbname self w) = max_conns self /\
               connection_opened (_stats (popped dbname self w))
                 = connection_opened (_stats self)).
  { unfold popped, swept; simpl.
    destruct (prune_run self (snd (datetime_now w)) Hwf)
      as (self1 & w1 & E & _ & Hm & _ & Ho).
    rewrite E. auto. }
  split; [exact Er|]. split; [exact Hgone|].
  split; [|split; [|split]].
  - rewrite Er. unfold pool_after at 1; simpl.
    subst r1. unfold admission_of. rewrite admission_eq.
    destruct Hm as [Hm Ho]. rewrite Hm.
    destruct (max_conns self) as [m|].
    + pose proof (@free_space_outcome _ _ _ fuel m
                    (effective_timeout timeout self) (started w)
                    (popped dbname self w) (snd (swept self w))
                    (@popped_wf _ _ _ dbname self w Hwf))
        as (_ & _ & _ & Ho').
      cbv zeta in Ho'. rewrite Ho'. lia.
    + unfold pool_after. cbn [fst snd]. lia.
  - intros k c Hne Hg Hc. apply Hkeep; auto. congruence.
  - intros k c Hg.
    destruct (String.eqb_spec k dbname) as [->|Hne]; [congruence|].
    apply Hold; auto. congruence.
  - intros Hnone.
    assert (E1 : r1 = (Return tt, popped dbname self w, snd (swept self w))).
    { subst r1. unfold admission_of. rewrite admission_eq.
      destruct Hm as [Hm _]. now rewrite Hm, Hnone. }
    rewrite Er, E1. unfold pool_after, world_after; simpl. auto.
Qed.

End Claims.

(** ** Further properties of the pool *)

Unset Implicit Arguments.

(** *** Relations kept by every call *)

Section Invariant.

Context {World Conn : Type} {env : Env World Conn}.

Local Abbreviation Info := (ConnectionInfo Conn).
Local Abbreviation pool := (Pool Conn).
Local Abbreviation M := (@M World Conn).

Variable R : pool -> pool -> Prop.

Hypothesis R_refl : forall s, R s s.
Hypothesis R_trans : forall a b c, R a b -> R b c -> R a c.

(** What the relation has to survive: a termination, the three steps of
    the counters, the pop of an acquire and the release of a record. *)
Hypothesis R_terminate :
  forall dbname self w,
    Dict.wf (_conns self) ->
    R self (pool_after (_terminate_connection_unsafe dbname self w)).
Hypothesis R_pruned :
  forall self, R self (set_stats (incr_pruned (_stats self)) self).
Hypothesis R_opened :
  forall self, R self (set_stats (incr_opened (_stats self)) self).
Hypothesis R_pop :
  forall dbname self,
    Dict.wf (_conns self) ->
    R self (set_conns (Dict.remove dbname (_conns self)) self).
Hypothesis R_idle :
  forall dbname c self,
    Dict.get dbname (_conns self) = Some c ->
    R self (set_conns (Dict.set dbname (set_active false c) (_conns self)) self).

Lemma keeps_bind {A B} (m : M A) (k : A -> M B) :
  keeps R m -> (forall a, keeps R (k a)) -> keeps R (bind m k).
Proof.
  intros Hm Hk self w Hwf.
  destruct (Hm self w Hwf) as [Hwf1 HR1].
  unfold bind, pool_after in *.
  destruct (m self w) as [[[a|e|] self1] w1]; simpl in *; auto.
  destruct (Hk a self1 w1 Hwf1) as [Hwf2 HR2].
  split; [exact Hwf2|]. eapply R_trans; eassumption.
Qed.

Lemma keeps_same {A} (m : M A) :
  (forall self w, pool_after (m self w) = self) -> keeps R m.
Proof. intros H self w Hwf. rewrite H. auto. Qed.

Lemma keeps_ret {A} (a : A) : keeps R (ret a : M A).
Proof. now apply keeps_same. Qed.

Lemma keeps_now : keeps R (now : M Z).
Proof.
  apply keeps_same. intros self w. unfold now, pool_after.
  now destruct (datetime_now w).
Qed.

Lemma keeps_lift {A} (f : World -> result A * World) : keeps R (lift f : M A).
Proof.
  apply keeps_same. intros self w. unfold lift, pool_after.
  now destruct (f w).
Qed.

Lemma keeps_gets {A} (f : pool -> A) : keeps R (gets f : M A).
Proof. now apply keeps_same. Qed.

Lemma keeps_terminate (dbname : string) :
  keeps R (_terminate_connection_unsafe dbname).
Proof.
  intros self w Hwf. split; [|now apply R_terminate].
  now apply (@frames_terminate _ _ _ dbname self w Hwf).
Qed.

Lemma keeps_count_pruned :
  keeps R (modify (fun self : pool => set_stats (incr_pruned (_stats self)) self) : M unit).
Proof. intros self w Hwf. split; [exact Hwf|apply R_pruned]. Qed.

Lemma keeps_for_each {A} (body : A -> M unit) (l : list A) :
  (forall x, keeps R (body x)) -> keeps R (for_each l body).
Proof.
  intros Hbody. induction l as [|x l IH]; simpl.
  - apply keeps_ret.
  - apply keeps_bind; [apply Hbody|intros _; exact IH].
Qed.

Lemma keeps_prune : keeps R prune_connections.
Proof.
  unfold prune_connections.
  apply keeps_bind; [apply keeps_now|intros t].
  apply keeps_bind; [apply keeps_gets|intros items].
  apply keeps_for_each. intros [conn_name conn]. unfold prune_one.
  destruct (prunable t conn); [|apply keeps_ret].
  apply keeps_bind; [apply keeps_count_pruned|intros _].
  apply keeps_bind; [apply keeps_terminate|intros _]. apply keeps_ret.
Qed.

Lemma keeps_close_each (names : list string) :
  forall success, keeps R (close_each names success).
Proof.
  induction names as [|dbname names IH]; intros success; simpl.
  - apply keeps_ret.
  - apply keeps_bind; [apply keeps_terminate|intros ok]. apply IH.
Qed.

Lemma keeps_close_all : keeps R close_all_connections.
Proof.
  unfold close_all_connections.
  apply keeps_bind; [apply keeps_gets|intros names]. apply keeps_close_each.
Qed.

Lemma keeps_evict : keeps R evict_lru.
Proof.
  unfold evict_lru.
  apply keeps_bind; [apply keeps_gets|intros conns]. cbv zeta.
  destruct (find evictable (sorted (fun i => last_accessed (snd i)) conns))
    as [[name c]|]; [|apply keeps_ret].
  apply keeps_bind; [apply keeps_terminate|intros _]. apply keeps_ret.
Qed.

Lemma keeps_check_timeout (m : Z) (tmo : option Z) (start : Z) :
  keeps R (check_timeout m tmo start).
Proof.
  apply keeps_same. intros self w.
  unfold check_timeout, bind, now, raise, ret, pool_after.
  destruct tmo as [t|]; [|reflexivity].
  destruct (datetime_now w) as [t' w'].
  now destruct (elapsed_exceeds t start t').
Qed.

Lemma keeps_free_space (fuel : nat) (m : Z) (tmo : option Z) (start : Z) :
  keeps R (free_space fuel m tmo start).
Proof.
  induction fuel as [|fuel IH]; intros self w Hwf; simpl.
  - destruct (Z.of_nat (List.length (_conns self)) >=? m); auto.
  - destruct (Z.of_nat (List.length (_conns self)) >=? m); [|auto].
    revert self w Hwf.
    change (keeps R
              (bind prune_connections (fun _ =>
               bind evict_lru (fun _ =>
               bind (check_timeout m tmo start) (fun _ =>
               bind sleep (fun _ => free_space fuel m tmo start)))))).
    apply keeps_bind; [apply keeps_prune|intros _].
    apply keeps_bind; [apply keeps_evict|intros _].
    apply keeps_bind; [apply keeps_check_timeout|intros _].
    apply keeps_bind; [now apply keeps_same|intros _].
    exact IH.
Qed.

Lemma keeps_open_connection (fuel : nat) (dbname : string) (tmo : option Z)
    (start : Z) (startup_fn : option startup_hook) :
  keeps R (open_connection fuel dbname tmo start startup_fn).
Proof.
  unfold open_connection.
  apply keeps_bind.
  { unfold admission. apply keeps_bind; [apply keeps_gets|intros [m|]].
    - apply keeps_free_space.
    - apply keeps_ret. }
  intros _. apply keeps_bind.
  { intros self w Hwf. split; [exact Hwf|apply R_opened]. }
  intros _. apply keeps_bind; [apply keeps_lift|intros db].
  apply keeps_bind; [|intros _; apply keeps_ret].
  destruct startup_fn; [apply keeps_lift|apply keeps_ret].
Qed.

Lemma keeps_get_connection_raw (fuel : nat) (dbname : string) (ttl_ms : Z)
    (timeout : option Z) (startup_fn : option startup_hook) (persistent' : bool) :
  keeps R (_get_connection_raw fuel dbname ttl_ms timeout startup_fn persistent').
Proof.
  unfold _get_connection_raw.
  apply keeps_bind.
  2:{ intros p. apply keeps_same. intros self w.
      now rewrite register_connection_eq. }
  unfold obtain_connection.
  apply keeps_bind; [apply keeps_gets|intros tmo].
  apply keeps_bind; [apply keeps_now|intros start].
  apply keeps_bind; [apply keeps_prune|intros _].
  apply keeps_bind; [apply keeps_gets|intros conn].
  apply keeps_bind.
  { intros self w Hwf. split; [|now apply R_pop].
    now apply DictFacts.wf_remove. }
  intros _. destruct conn as [c|].
  - apply keeps_bind; [now apply keeps_same|intros bad].
    destruct bad; [|apply keeps_ret].
    apply keeps_bind; [apply keeps_open_connection|intros db]. apply keeps_ret.
  - apply keeps_bind; [apply keeps_open_connection|intros db]. apply keeps_ret.
Qed.

Lemma keeps_get_connection_exit (dbname : string) (db : Conn)
    (body : body_outcome) :
  keeps R (get_connection_exit dbname db body).
Proof.
  intros self w Hwf.
  destruct (keeps_terminate dbname self w Hwf) as [Hwf1 HR1].
  rewrite get_connection_exit_eq.
  destruct body as [|e].
  - destruct (db_broken db w); [auto|].
    destruct (Dict.get dbname (_conns self)) as [c|] eqn:E; [|auto].
    unfold pool_after; simpl. split; [|now apply R_idle].
    unfold Dict.wf. now rewrite (DictFacts.keys_set_present _ _ _ E).
  - destruct (is_InterruptedError e); auto.
Qed.

Lemma keeps_run_call (fuel : nat) (c : call) (self : pool) (w : World) :
  Dict.wf (_conns self) ->
  Dict.wf (_conns (fst (run_call fuel c (self, w)))) /\
  R self (fst (run_call fuel c (self, w))).
Proof.
  intros Hwf. destruct c; simpl.
  - now apply keeps_get_connection_raw.
  - now apply keeps_get_connection_exit.
  - now apply keeps_prune.
  - now apply keeps_evict.
  - now apply keeps_close_all.
  - now apply keeps_terminate.
Qed.

Lemma keeps_run_calls (fuel : nat) (cs : list call) :
  forall (self : pool) (w : World),
    Dict.wf (_conns self) ->
    Dict.wf (_conns (fst (run_calls fuel cs (self, w)))) /\
    R self (fst (run_calls fuel cs (self, w))).
Proof.
  induction cs as [|c cs IH]; intros self w Hwf; [auto|].
  unfold run_calls; simpl fold_left. fold (run_calls fuel cs).
  destruct (keeps_run_call fuel c self w Hwf) as [Hwf1 HR1].
  destruct (run_call fuel c (self, w)) as [self1 w1]; simpl in *.
  destruct (IH self1 w1 Hwf1) as [Hwf2 HR2].
  split; [exact Hwf2|]. eapply R_trans; eassumption.
Qed.

(** The calls that only close need less of the relation. *)
Lemma keeps_closing_calls (fuel : nat) (cs : list call) :
  forall (self : pool) (w : World),
    Dict.wf (_conns self) ->
    forallb closing cs = true ->
    Dict.wf (_conns (fst (run_calls fuel cs (self, w)))) /\
    R self (fst (run_calls fuel cs (self, w))).
Proof.
  induction cs as [|c cs IH]; intros self w Hwf Hcs; [auto|].
  simpl in Hcs. apply andb_true_iff in Hcs as [Hc Hcs].
  unfold run_calls; simpl fold_left. fold (run_calls fuel cs).
  assert (H1 : Dict.wf (_conns (fst (run_call fuel c (self, w)))) /\
               R self (fst (run_call fuel c (self, w)))).
  { destruct c; simpl in Hc; try discriminate; simpl.
    - now apply keeps_prune.
    - now apply keeps_evict.
    - now apply keeps_close_all.
    - now apply keeps_terminate. }
  destruct H1 as [Hwf1 HR1].
  destruct (run_call fuel c (self, w)) as [self1 w1]; simpl in *.
  destruct (IH self1 w1 Hwf1 Hcs) as [Hwf2 HR2].
  split; [exact Hwf2|]. eapply R_trans; eassumption.
Qed.


End Invariant.

(** *** The relations at hand *)

Section Relations.

Context {World Conn : Type} {env : Env World Conn}.

Local Abbreviation Info := (ConnectionInfo Conn).
Local Abbreviation pool := (Pool Conn).

Lemma length_remove_present (k : string) (c : Info) (d : Dict.t Info) :
  Dict.get k d = Some c -> S (List.length (Dict.remove k d)) = List.length d.
Proof.
  induction d as [|[k0 v0] d IH]; simpl; [discriminate|].
  destruct (String.eqb k k0); simpl; [reflexivity|].
  intros Hg. now rewrite IH.
Qed.

Lemma get_set_same (k : string) (v v' : Info) (d : Dict.t Info) :
  Dict.get k d = Some v' -> Dict.get k (Dict.set k v d) = Some v.
Proof.
  induction d as [|[k0 v0] d IH]; simpl; [discriminate|].
  destruct (String.eqb_spec k k0) as [->|Hne]; simpl.
  - now rewrite String.eqb_refl.
  - destruct (String.eqb_spec k k0); [contradiction|exact IH].
Qed.

Lemma terminate_cases (dbname : string) (self : pool) (w : World) :
  (Dict.get dbname (_conns self) = None /\
   _terminate_connection_unsafe dbname self w = (Return true, self, w))
  \/
  (exists c,
     Dict.get dbname (_conns self) = Some c /\
     _terminate_connection_unsafe dbname self w =
       (Return (fst (db_close (connection c) w)),
        mkPool (max_conns self)
          (if fst (db_close (connection c) w)
           then incr_closed (_stats self) else incr_closed_failed (_stats self))
          (Dict.remove dbname (_conns self))
          (connection_timeout self)
          (if fst (db_close (connection c) w)
           then _log self else _log self ++ [dbname]),
        snd (db_close (connection c) w))).
Proof.
  destruct (Dict.get dbname (_conns self)) as [c|] eqn:E.
  - right. exists c. split; [reflexivity|]. now apply terminate_present.
  - left. split; [reflexivity|]. now apply terminate_absent.
Qed.

Lemma counters_grow_terminate (dbname : string) (self : pool) (w : World) :
  counters_grow self (pool_after (_terminate_connection_unsafe dbname self w)).
Proof.
  destruct (terminate_cases dbname self w) as [[_ ->]|(c & _ & ->)];
    unfold counters_grow, pool_after; simpl; [lia|].
  destruct (fst (db_close (connection c) w)); simpl; lia.
Qed.

Lemma failures_logged_terminate (dbname : string) (self : pool) (w : World) :
  failures_logged self (pool_after (_terminate_connection_unsafe dbname self w)).
Proof.
  destruct (terminate_cases dbname self w) as [[_ ->]|(c & _ & ->)];
    unfold failures_logged, pool_after; simpl.
  - split; [lia|]. exists []. now rewrite app_nil_r.
  - destruct (fst (db_close (connection c) w)); simpl.
    + split; [lia|]. exists []. now rewrite app_nil_r.
    + split; [rewrite length_app; simpl; lia|]. now exists [dbname].
Qed.

Lemma no_record_made_remove (dbname : string) (self : pool) (st : Stats)
    (lg : list string) :
  Dict.wf (_conns self) ->
  no_record_made self
    (mkPool (max_conns self) st (Dict.remove dbname (_conns self))
       (connection_timeout self) lg).
Proof.
  intros Hwf k c' Hg. simpl in Hg. exists c'. split; [|now left].
  destruct (String.eqb_spec k dbname) as [->|Hne].
  - rewrite DictFacts.get_remove_same in Hg by assumption. discriminate.
  - now rewrite DictFacts.get_remove_other in Hg.
Qed.

Lemma no_record_made_refl (s : pool) : no_record_made s s.
Proof. intros k c' Hg. exists c'. auto. Qed.

Lemma no_record_made_trans (a b c : pool) :
  no_record_made a b -> no_record_made b c -> no_record_made a c.
Proof.
  intros Hab Hbc k c2 Hg.
  destruct (Hbc k c2 Hg) as (c1 & Hg1 & H12).
  destruct (Hab k c1 Hg1) as (c0 & Hg0 & H01).
  exists c0. split; [exact Hg0|].
  destruct H12 as [->| ->], H01 as [->| ->]; auto.
Qed.

Lemma no_record_made_terminate (dbname : string) (self : pool) (w : World) :
  Dict.wf (_conns self) ->
  no_record_made self (pool_after (_terminate_connection_unsafe dbname self w)).
Proof.
  intros Hwf.
  destruct (terminate_cases dbname self w) as [[_ ->]|(c & _ & ->)];
    unfold pool_after; simpl.
  - apply no_record_made_refl.
  - now apply no_record_made_remove.
Qed.

Lemma closes_counted_terminate (dbname : string) (self : pool) (w : World) :
  closes_counted self (pool_after (_terminate_connection_unsafe dbname self w)).
Proof.
  destruct (terminate_cases dbname self w) as [[_ ->]|(c & Hg & ->)];
    unfold closes_counted, pool_after; simpl; [lia|].
  pose proof (length_remove_present dbname c (_conns self) Hg) as Hlen.
  destruct (fst (db_close (connection c) w)); simpl; lia.
Qed.




Lemma counters_grow_open_connection (fuel : nat) (dbname : string)
    (tmo : option Z) (start : Z) (startup_fn : option startup_hook)
    (self : pool) (w : World) :
  Dict.wf (_conns self) ->
  counters_grow self
    (pool_after (open_connection fuel dbname tmo start startup_fn self w)).
Proof.
  intros Hwf.
  apply (keeps_open_connection (@counters_grow Conn)); auto.
  - intros s. unfold counters_grow. lia.
  - intros a b c. unfold counters_grow. lia.
  - intros k s w' _. apply counters_grow_terminate.
  - intros s. unfold counters_grow. simpl. lia.
  - intros s. unfold counters_grow. simpl. lia.
Qed.

End Relations.

(** *** The properties *)

Section Further.

Context {World Conn : Type} {env : Env World Conn}.

Local Abbreviation Info := (ConnectionInfo Conn).
Local Abbreviation pool := (Pool Conn).

(** X1.  [_terminate_connection_unsafe] asks a record's connection to close
    at most once: after the call the key is gone, whether the close
    succeeded or raised, so a second call for the same key finds nothing,
    returns [True], calls no [close()] and counts and logs nothing; and the
    call returns [False] only for a key that was in the registry. *)
Theorem terminate_twice (dbname : string) (self : pool) (w : World) :
  Dict.wf (_conns self) ->
  let r := _terminate_connection_unsafe dbname self w in
  Dict.get dbname (_conns (pool_after r)) = None /\
  _terminate_connection_unsafe dbname (pool_after r) (world_after r)
    = (Return true, pool_after r, world_after r) /\
  (outcome r = Return false -> Dict.get dbname (_conns self) <> None) /\
  (forall k, k <> dbname ->
     Dict.get k (_conns (pool_after r)) = Dict.get k (_conns self)).
Proof.
  intros Hwf r.
  assert (Hgone : Dict.get dbname (_conns (pool_after r)) = None).
  { subst r.
    destruct (terminate_cases dbname self w) as [[Hg ->]|(c & _ & ->)];
      unfold pool_after; simpl; [exact Hg|].
    now apply DictFacts.get_remove_same. }
  split; [exact Hgone|]. split; [now apply terminate_absent|].
  subst r.
  destruct (terminate_cases dbname self w) as [[Hg ->]|(c & Hg & ->)];
    unfold outcome, pool_after; simpl.
  - split; [discriminate|reflexivity].
  - split; [congruence|]. intros k Hne. now apply DictFacts.get_remove_other.
Qed.

(** X2.  Across any sequence of [prune_connections], [evict_lru],
    [close_all_connections] and [_terminate_connection_unsafe] calls, every
    record that leaves the registry is counted exactly once, as closed or
    as failing to close: the size of the registry plus the two counters
    does not change. *)
Theorem closing_calls_count_every_removal
    (fuel : nat) (cs : list call) (self : pool) (w : World) :
  Dict.wf (_conns self) ->
  forallb closing cs = true ->
  closes_counted self (fst (run_calls fuel cs (self, w))).
Proof.
  intros Hwf Hcs.
  apply (keeps_closing_calls (@closes_counted Conn)); auto.
  - intros s. unfold closes_counted. lia.
  - intros a b c. unfold closes_counted. lia.
  - intros k s w' _. apply closes_counted_terminate.
  - intros s. unfold closes_counted. simpl. lia.
Qed.

(** X3.  No call ever lowers a counter: across any sequence of acquires,
    releases, sweeps, evictions, bulk closes and terminations, whatever
    they return or raise, the opened, pruned, closed and closed-failed
    counters are each at least what they were. *)
Theorem counters_never_decrease
    (fuel : nat) (cs : list call) (self : pool) (w : World) :
  Dict.wf (_conns self) ->
  counters_grow self (fst (run_calls fuel cs (self, w))).
Proof.
  intros Hwf.
  apply (keeps_run_calls (@counters_grow Conn)); auto.
  - intros s. unfold counters_grow. lia.
  - intros a b c. unfold counters_grow. lia.
  - intros k s w' _. apply counters_grow_terminate.
  - intros s. unfold counters_grow. simpl. lia.
  - intros s. unfold counters_grow. simpl. lia.
  - intros k s _. unfold counters_grow. simpl. lia.
  - intros k c s _. unfold counters_grow. simpl. lia.
Qed.

(** X4.  Every close that raises is logged exactly once and nothing else is
    logged: across any sequence of calls the log only grows at its end, by
    as many lines as the closed-failed counter has grown. *)
Theorem every_failed_close_is_logged
    (fuel : nat) (cs : list call) (self : pool) (w : World) :
  Dict.wf (_conns self) ->
  failures_logged self (fst (run_calls fuel cs (self, w))).
Proof.
  intros Hwf.
  assert (Hrefl : forall s : pool, failures_logged s s).
  { intros s. split; [lia|]. exists []. now rewrite app_nil_r. }
  apply (keeps_run_calls (@failures_logged Conn)); auto.
  - intros a b c [H1 (l1 & E1)] [H2 (l2 & E2)]. split; [lia|].
    exists (l1 ++ l2). now rewrite E2, E1, app_assoc.
  - intros k s w' _. apply failures_logged_terminate.
  - intros k s _. split; [simpl; lia|]. exists []. simpl. now rewrite app_nil_r.
  - intros k c s _. split; [simpl; lia|]. exists []. simpl. now rewrite app_nil_r.
Qed.

(** X5.  As the class is written no call puts a record into the registry or
    refreshes one: after any sequence of calls every record of the registry
    was there from the start, under the same key, and is the same record or
    that record with [active] cleared by a release. *)
Theorem no_call_makes_a_record
    (fuel : nat) (cs : list call) (self : pool) (w : World) :
  Dict.wf (_conns self) ->
  no_record_made self (fst (run_calls fuel cs (self, w))).
Proof.
  intros Hwf.
  apply (keeps_run_calls (@no_record_made Conn)); auto.
  - apply no_record_made_refl.
  - apply no_record_made_trans.
  - intros k s w' Hs. now apply no_record_made_terminate.
  - intros s k c' Hg. exists c'. simpl in Hg. auto.
  - intros s k c' Hg. exists c'. simpl in Hg. auto.
  - intros k s Hs. destruct s as [mx st d tmo lg].
    now apply (no_record_made_remove k (mkPool mx st d tmo lg) st lg).
  - intros k c s Hg k' c' Hg'. simpl in Hg'.
    destruct (String.eqb_spec k' k) as [->|Hne].
    + rewrite (get_set_same k _ c _ Hg) in Hg'. injection Hg' as <-.
      exists c. auto.
    + rewrite DictFacts.get_set_other in Hg' by assumption.
      exists c'. auto.
Qed.

Lemma prune_nothing (self : pool) (w : World) :
  Dict.wf (_conns self) ->
  (forall item, In item (_conns self) ->
     prunable (fst (datetime_now w)) (snd item) = false) ->
  prune_connections self w = (Return tt, self, snd (datetime_now w)).
Proof.
  intros Hwf Hall.
  rewrite (prune_connections_eq self w Hwf). cbv zeta.
  assert (Hrem : filter (fun i => prunable (fst (datetime_now w)) (snd i))
                   (_conns self) = []).
  { clear Hwf. induction (_conns self) as [|i d IH]; [reflexivity|].
    simpl. rewrite Hall by now left.
    apply IH. intros item Hin. apply Hall. now right. }
  assert (Hkeep : filter (fun i => negb (prunable (fst (datetime_now w)) (snd i)))
                    (_conns self) = _conns self).
  { clear Hwf Hrem. induction (_conns self) as [|i d IH]; [reflexivity|].
    simpl. rewrite Hall by now left.
    simpl. f_equal. apply IH. intros item Hin. apply Hall. now right. }
  rewrite Hrem, Hkeep. simpl.
  destruct self as [mx [o p c f] d tmo lg]; simpl.
  apply run_eq; try reflexivity.
  - apply stats_eq; lia.
  - apply app_nil_r.
Qed.

(** X6.  A sweep is a matter of the clock alone: sweeping again at an
    instant that is not later than the first sweep's removes nothing,
    closes nothing and leaves every counter as it is. *)
Theorem prune_again_removes_nothing (self : pool) (w : World) :
  Dict.wf (_conns self) ->
  let r := prune_connections self w in
  fst (datetime_now (world_after r)) <= fst (datetime_now w) ->
  prune_connections (pool_after r) (world_after r)
    = (Return tt, pool_after r, snd (datetime_now (world_after r))).
Proof.
  intros Hwf r Hclock.
  assert (Hr : _conns (pool_after r)
               = filter (fun i => negb (prunable (fst (datetime_now w)) (snd i)))
                   (_conns self)).
  { subst r. now rewrite (prune_connections_eq self w Hwf). }
  apply prune_nothing.
  - rewrite Hr. now apply DictFacts.wf_filter.
  - intros item Hin. rewrite Hr in Hin.
    apply filter_In in Hin as [_ Hnot].
    apply negb_true_iff in Hnot.
    unfold prunable in *.
    destruct (Z.ltb_spec (deadline (snd item)) (fst (datetime_now w)))
      as [Hlt|Hge]; simpl in Hnot.
    + destruct (Z.ltb_spec (deadline (snd item))
                  (fst (datetime_now (world_after r)))); simpl; [exact Hnot|].
      reflexivity.
    + destruct (Z.ltb_spec (deadline (snd item))
                  (fst (datetime_now (world_after r)))); [lia|reflexivity].
Qed.

Lemma In_remove (k : string) (item : string * Info) (d : Dict.t Info) :
  In item (Dict.remove k d) -> In item d.
Proof.
  induction d as [|[k0 v0] d IH]; simpl; [tauto|].
  destruct (String.eqb k k0); simpl; tauto.
Qed.

(** X7.  Evictions come out least recently used first: when [evict_lru]
    evicts a record and the next call evicts another, the two are different
    records of the original registry and the first was last accessed no
    later than the second. *)
Theorem evictions_in_lru_order (self : pool) (w : World) (k1 k2 : string) :
  Dict.wf (_conns self) ->
  let r1 := evict_lru self w in
  let r2 := evict_lru (pool_after r1) (world_after r1) in
  outcome r1 = Return (Some k1) ->
  outcome r2 = Return (Some k2) ->
  exists c1 c2,
    Dict.get k1 (_conns self) = Some c1 /\
    Dict.get k2 (_conns self) = Some c2 /\
    k1 <> k2 /\
    last_accessed c1 <= last_accessed c2 /\
    Dict.get k1 (_conns (pool_after r2)) = None /\
    Dict.get k2 (_conns (pool_after r2)) = None.
Proof.
  intros Hwf r1 r2 H1 H2.
  destruct (find evictable
              (sorted (fun i => last_accessed (snd i)) (_conns self)))
    as [[n1 c1]|] eqn:Hf1.
  2:{ subst r1. rewrite evict_lru_none in H1
        by exact (proj1 (find_sorted_none _ _ _) Hf1).
      discriminate. }
  assert (E1 : r1 = _) by (subst r1; exact (evict_lru_some self w Hwf Hf1)).
  rewrite E1 in H1. unfold outcome in H1; simpl in H1.
  injection H1 as ->.
  pose proof (find_sorted_least _ _ _ Hf1) as (Hin1 & _ & Hleast).
  assert (Hwf1 : Dict.wf (_conns (pool_after r1))).
  { rewrite E1. unfold pool_after; simpl. now apply DictFacts.wf_remove. }
  assert (Hc1 : _conns (pool_after r1) = Dict.remove k1 (_conns self)).
  { now rewrite E1. }
  destruct (find evictable
              (sorted (fun i => last_accessed (snd i)) (_conns (pool_after r1))))
    as [[n2 c2]|] eqn:Hf2.
  2:{ subst r2. rewrite evict_lru_none in H2
        by exact (proj1 (find_sorted_none _ _ _) Hf2).
      discriminate. }
  assert (E2 : r2 = _)
    by (subst r2; exact (evict_lru_some (pool_after r1) (world_after r1) Hwf1 Hf2)).
  rewrite E2 in H2. unfold outcome in H2; simpl in H2.
  injection H2 as ->.
  pose proof (find_sorted_least _ _ _ Hf2) as (Hin2 & Hev2 & _).
  assert (Hg2 : Dict.get k2 (Dict.remove k1 (_conns self)) = Some c2).
  { rewrite <- Hc1. now apply DictFacts.In_get. }
  assert (Hne : k1 <> k2).
  { intros ->. rewrite DictFacts.get_remove_same in Hg2 by assumption.
    discriminate. }
  exists c1, c2.
  split; [now apply DictFacts.In_get|].
  split; [now rewrite DictFacts.get_remove_other in Hg2 by auto|].
  split; [exact Hne|].
  split.
  { apply (Hleast (k2, c2)); [|exact Hev2].
    rewrite Hc1 in Hin2. eapply In_remove; eassumption. }
  rewrite E2. unfold pool_after at 1 3; simpl. rewrite Hc1. split.
  - rewrite DictFacts.get_remove_other by assumption.
    now apply DictFacts.get_remove_same.
  - apply DictFacts.get_remove_same. now apply DictFacts.wf_remove.
Qed.

(** X8.  After [close_all_connections] the pool is empty whatever happened
    to the individual closes: a second bulk close returns [True] even if
    the first returned [False], the next eviction finds nothing, and
    neither calls [close()] or touches a counter. *)
Theorem close_all_twice (self : pool) (w : World) :
  Dict.wf (_conns self) ->
  let r := close_all_connections self w in
  close_all_connections (pool_after r) (world_after r)
    = (Return true, pool_after r, world_after r) /\
  evict_lru (pool_after r) (world_after r)
    = (Return None, pool_after r, world_after r).
Proof.
  intros Hwf r.
  assert (Hr : _conns (pool_after r) = []).
  { subst r. unfold close_all_connections, bind, gets.
    destruct self as [mx st d tmo lg]; simpl in *.
    now rewrite (close_each_eq true mx st tmo lg w Hwf). }
  split.
  - unfold close_all_connections, bind, gets. now rewrite Hr.
  - apply evict_lru_none. rewrite Hr. intros item [].
Qed.

(** X9.  The code of [get_connection] after its [yield], resumed by a body
    that completed with a connection that is not broken, marks the record
    of the key idle and does nothing else: the record keeps its connection,
    deadline, last access and persistence and its place in the registry,
    every other record is untouched, and no [close()] is called and no
    counter or log line written.  When the key has no record any more it
    does nothing at all and still returns normally. *)
Theorem release_marks_idle (dbname : string) (db : Conn) (self : pool)
    (w : World) :
  db_broken db w = false ->
  let r := get_connection_exit dbname db BodyCompleted self w in
  outcome r = Return tt /\
  world_after r = w /\
  _stats (pool_after r) = _stats self /\
  _log (pool_after r) = _log self /\
  Dict.keys (_conns (pool_after r)) = Dict.keys (_conns self) /\
  (forall k, k <> dbname ->
     Dict.get k (_conns (pool_after r)) = Dict.get k (_conns self)) /\
  match Dict.get dbname (_conns self) with
  | Some c =>
      Dict.get dbname (_conns (pool_after r))
        = Some (mkConnectionInfo (connection c) (deadline c) false
                  (last_accessed c) (thread c) (persistent c))
  | None => pool_after r = self
  end.
Proof.
  intros Hbroken r. subst r.
  rewrite get_connection_exit_eq, Hbroken.
  destruct (Dict.get dbname (_conns self)) as [c|] eqn:E;
    unfold outcome, pool_after, world_after; simpl.
  - repeat split.
    + now apply (DictFacts.keys_set_present _ _ _ E).
    + intros k Hne. now apply DictFacts.get_set_other.
    + now apply (get_set_same dbname _ c _ E).
  - repeat split.
Qed.

(** X10.  The same code resumed by an [InterruptedError] of the body, or by
    a body that completed with a broken connection, takes the record of the
    key out of the registry and asks the connection held by that record to
    close, once; it raises the [InterruptedError] again in the first case
    and returns normally in the second, also when the close raises.  Other
    records are untouched, and with no record for the key nothing is
    closed. *)
Theorem release_removes_unusable (dbname : string) (db : Conn)
    (body : body_outcome) (self : pool) (w : World) :
  Dict.wf (_conns self) ->
  body = BodyRaised InterruptedError \/
  (body = BodyCompleted /\ db_broken db w = true) ->
  let r := get_connection_exit dbname db body self w in
  outcome r = match body with
              | BodyRaised e => Raise e
              | BodyCompleted => Return tt
              end /\
  Dict.get dbname (_conns (pool_after r)) = None /\
  (forall k, k <> dbname ->
     Dict.get k (_conns (pool_after r)) = Dict.get k (_conns self)) /\
  match Dict.get dbname (_conns self) with
  | Some c =>
      world_after r = snd (db_close (connection c) w) /\
      _stats (pool_after r)
        = (if fst (db_close (connection c) w)
           then incr_closed (_stats self)
           else incr_closed_failed (_stats self))
  | None => world_after r = w /\ pool_after r = self
  end.
Proof.
  intros Hwf Hbody r.
  assert (Er : r = (match body with
                    | BodyRaised e => Raise e
                    | BodyCompleted => Return tt
                    end,
                    pool_after (_terminate_connection_unsafe dbname self w),
                    world_after (_terminate_connection_unsafe dbname self w))).
  { subst r. rewrite get_connection_exit_eq.
    destruct Hbody as [->|[-> Hb]]; simpl; [reflexivity|now rewrite Hb]. }
  rewrite Er. unfold outcome at 1. simpl fst.
  split; [reflexivity|].
  unfold pool_after at 1 2. unfold world_after at 1. simpl fst. simpl snd.
  destruct (terminate_cases dbname self w) as [[Hg E]|(c & Hg & E)];
    rewrite E, Hg; unfold pool_after, world_after; simpl.
  - repeat split; auto.
  - split; [now apply DictFacts.get_remove_same|].
    split; [|split; reflexivity].
    intros k Hne. now apply DictFacts.get_remove_other.
Qed.

(** X11.  A record that is in use is never taken away by housekeeping or by
    an acquire of another key: across any sequence of acquires, sweeps and
    evictions, with the sweeps and evictions the acquires run to free
    space, a record with [active] set stays in the registry unchanged,
    however old its deadline and last access, unless its own key is
    acquired. *)
Theorem busy_records_survive (fuel : nat) (ops : list op) (self : pool)
    (w : World) (k : string) (c : Info) :
  Dict.wf (_conns self) ->
  Dict.get k (_conns self) = Some c ->
  active c = true ->
  ~ In k (acquired ops) ->
  Dict.get k (_conns (fst (run_ops fuel ops (self, w)))) = Some c.
Proof.
  intros Hwf Hg Hactive Hk.
  apply (@run_ops_keep _ _ _ fuel ops self w k c); auto.
  unfold guarded. now rewrite Hactive.
Qed.

(** X12.  With every record in use or persistent and the registry at or
    above the maximum, the loop that frees space never lets the acquire
    through and never changes the pool: it ends in the pool-full error or
    goes on waiting, and with no timeout in force (none given and none
    configured) it waits however much fuel it is given. *)
Theorem full_pool_in_use_never_admits
    (m : Z) (tmo : option Z) (start : Z) (self : pool) (fuel : nat) :
  forall w : World,
    Dict.wf (_conns self) ->
    (forall item, In item (_conns self) -> guarded (snd item) = true) ->
    Z.of_nat (List.length (_conns self)) >= m ->
    let r := free_space fuel m tmo start self w in
    outcome r <> Return tt /\
    pool_after r = self /\
    (tmo = None -> outcome r = OutOfFuel).
Proof.
  induction fuel as [|fuel IH]; intros w Hwf Hall Hfull r; subst r.
  - simpl.
    destruct (Z.geb_spec (Z.of_nat (List.length (_conns self))) m); [|lia].
    unfold outcome, pool_after; simpl. repeat split; auto. discriminate.
  - rewrite (@free_space_iteration _ _ _ fuel m tmo start self self self
               w (snd (datetime_now w)) (snd (datetime_now w)) None Hfull
               (@prune_guarded _ _ _ self w Hwf Hall)
               (@evict_guarded _ _ _ self (snd (datetime_now w)) Hall)).
    destruct tmo as [t|].
    + destruct (elapsed_exceeds t start
                  (fst (datetime_now (snd (datetime_now w))))).
      * unfold outcome, pool_after; simpl.
        repeat split; discriminate.
      * apply IH; assumption.
    + apply IH; assumption.
Qed.

Lemma filter_length_lt {A} (f : A -> bool) (l : list A) (x : A) :
  In x l -> f x = false ->
  (List.length (filter f l) < List.length l)%nat.
Proof.
  induction l as [|y l IH]; simpl; [tauto|].
  intros [->|Hin] Hf.
  - rewrite Hf. pose proof (filter_length_le f l). lia.
  - specialize (IH Hin Hf). destruct (f y); simpl; lia.
Qed.

(** X13.  One pass of the loop frees a slot whenever a slot can be freed:
    if some record is idle and not persistent, the sweep and the eviction
    of a pass together leave the registry strictly smaller.  So an acquire
    that finds the registry exactly at the maximum, with such a record in
    it, is let through after one pass and one sleep, unless the timeout is
    already exceeded at that pass. *)
Theorem one_pass_frees_a_slot (self : pool) (w : World) (k : string) (c : Info) :
  Dict.wf (_conns self) ->
  Dict.get k (_conns self) = Some c ->
  active c = false -> persistent c = false ->
  let r1 := bind prune_connections (fun _ => evict_lru) self w in
  (List.length (_conns (pool_after r1)) < List.length (_conns self))%nat /\
  forall (fuel : nat) (tmo : option Z) (start : Z),
    match tmo with
    | Some t =>
        elapsed_exceeds t start (fst (datetime_now (world_after r1))) = false
    | None => True
    end ->
    free_space (S fuel) (Z.of_nat (List.length (_conns self))) tmo start self w
      = (Return tt, pool_after r1,
         time_sleep (match tmo with
                     | Some _ => snd (datetime_now (world_after r1))
                     | None => world_after r1
                     end)).
Proof.
  intros Hwf Hg Ha Hp r1.
  destruct (@prune_run _ _ _ self w Hwf) as (s1 & w1 & E1 & Hwf1 & _).
  assert (Hc1 : _conns s1
                = filter (fun i => negb (prunable (fst (datetime_now w)) (snd i)))
                    (_conns self)).
  { pose proof (prune_connections_eq self w Hwf) as E. cbv zeta in E.
    rewrite E in E1. now injection E1 as <- _. }
  destruct (@evict_run _ _ _ s1 w1 Hwf1) as (o & s2 & w2 & E2 & _).
  assert (Er1 : r1 = (Return o, s2, w2)).
  { subst r1. unfold bind. now rewrite E1, E2. }
  assert (Hlen : (List.length (_conns s2) < List.length (_conns self))%nat).
  { pose proof (filter_length_le
                  (fun i => negb (prunable (fst (datetime_now w)) (snd i)))
                  (_conns self)) as Hle.
    rewrite <- Hc1 in Hle.
    destruct (find evictable
                (sorted (fun i => last_accessed (snd i)) (_conns s1)))
      as [[n c']|] eqn:Hf.
    - rewrite (evict_lru_some s1 w1 Hwf1 Hf) in E2.
      injection E2 as _ <- _. simpl.
      pose proof (find_sorted_least _ _ _ Hf) as (Hin & _ & _).
      apply DictFacts.In_get in Hin; [|assumption].
      pose proof (length_remove_present n c' (_conns s1) Hin). lia.
    - rewrite evict_lru_none in E2
        by exact (proj1 (find_sorted_none _ _ _) Hf).
      injection E2 as _ <- _.
      pose proof (proj1 (find_sorted_none _ _ _) Hf) as Hnone.
      rewrite Hc1.
      apply filter_length_lt with (x := (k, c)); [now apply DictFacts.get_In|].
      apply negb_false_iff. simpl.
      destruct (prunable (fst (datetime_now w)) c) eqn:Epr; [reflexivity|].
      exfalso.
      assert (Hin : In (k, c) (_conns s1)).
      { rewrite Hc1. apply filter_In. split; [now apply DictFacts.get_In|].
        simpl. now rewrite Epr. }
      specialize (Hnone (k, c) Hin). unfold evictable in Hnone; simpl in Hnone.
      rewrite Ha, Hp in Hnone. discriminate. }
  rewrite Er1. unfold pool_after, world_after. simpl fst. simpl snd.
  split; [exact Hlen|].
  intros fuel tmo start Hcheck.
  rewrite (@free_space_iteration _ _ _ fuel
             (Z.of_nat (List.length (_conns self))) tmo start self s1 s2
             w w1 w2 o ltac:(lia) E1 E2).
  destruct tmo as [t|].
  - rewrite Hcheck. apply free_space_below. lia.
  - apply free_space_below. lia.
Qed.

(** X14.  An acquire counts a connection as opened exactly when it calls
    the factory: the opened counter goes up by one if the acquire has to
    open a connection and gets through admission control, whether the
    factory and the startup hook then succeed or raise, and stays as it is
    if a usable record is found or admission control fails or is still
    waiting. *)
Theorem acquire_counts_one_opening
    (fuel : nat) (dbname : string) (ttl_ms : Z) (timeout : option Z)
    (startup_fn : option startup_hook) (persistent' : bool)
    (self : pool) (w : World) :
  Dict.wf (_conns self) ->
  let r := _get_connection_raw fuel dbname ttl_ms timeout startup_fn
             persistent' self w in
  connection_opened (_stats (pool_after r))
    = connection_opened (_stats self)
      + (if must_open dbname self w then
           match outcome (admission_of fuel dbname timeout self w) with
           | Return _ => 1
           | _ => 0
           end
         else 0).
Proof.
  intros Hwf r.
  assert (Hpop : connection_opened (_stats (popped dbname self w))
                 = connection_opened (_stats self) /\
                 max_conns (popped dbname self w) = max_conns self).
  { unfold popped, swept; simpl.
    destruct (@prune_run _ _ _ self (snd (datetime_now w)) Hwf)
      as (s1 & w1 & E & _ & Hm & _ & Ho).
    rewrite E. unfold pool_after; simpl. auto. }
  destruct Hpop as [Hpop Hmax].
  destruct (get_connection_raw_outcome fuel dbname ttl_ms timeout startup_fn
              persistent' self w) as (_ & _ & Hst).
  fold r in Hst. rewrite Hst.
  rewrite obtain_connection_eq by assumption.
  destruct (must_open dbname self w) eqn:Hopen.
  - rewrite open_then_pair_eq, open_connection_eq.
    unfold admission_of.
    assert (Hadm : connection_opened
                     (_stats (pool_after
                        (admission fuel (effective_timeout timeout self)
                           (started w) (popped dbname self w)
                           (snd (swept self w)))))
                   = connection_opened (_stats self)).
    { rewrite admission_eq.
      destruct (max_conns (popped dbname self w)) as [m|].
      - pose proof (@free_space_outcome _ _ _ fuel m
                      (effective_timeout timeout self) (started w)
                      (popped dbname self w) (snd (swept self w))
                      (@popped_wf _ _ _ dbname self w Hwf))
          as (_ & _ & _ & Ho).
        cbv zeta in Ho. lia.
      - unfold pool_after; simpl. exact Hpop. }
    unfold outcome, pool_after in *.
    destruct (admission fuel (effective_timeout timeout self) (started w)
                (popped dbname self w) (snd (swept self w)))
      as [[[u|e|] s2] w2]; simpl in *; try lia.
    destruct (connect_fn dbname w2) as [[db|e|] w3]; simpl; try lia.
    destruct startup_fn as [f|]; simpl; [|lia].
    destruct (f db w3) as [[u'|e|] w4]; simpl; lia.
  - unfold must_open in Hopen.
    destruct (found dbname self w) as [c|]; [|discriminate].
    unfold pool_after; simpl fst; simpl snd. lia.
Qed.

(** X15.  When admission control lets an acquire through under a maximum
    [m], it leaves room for the new record and has sacrificed no record
    that is in use or persistent: the registry then holds fewer than [m]
    records, each of them a record it held before, unchanged, and every
    record that was in use or persistent is among them. *)
Theorem admission_leaves_room
    (fuel : nat) (dbname : string) (timeout : option Z) (m : Z)
    (self : pool) (w : World) :
  Dict.wf (_conns self) ->
  max_conns self = Some m ->
  let r := admission_of fuel dbname timeout self w in
  outcome r = Return tt ->
  Z.of_nat (List.length (_conns (pool_after r))) < m /\
  (forall k c, k <> dbname -> Dict.get k (_conns self) = Some c ->
     guarded c = true -> Dict.get k (_conns (pool_after r)) = Some c) /\
  (forall k c, Dict.get k (_conns (pool_after r)) = Some c ->
     k <> dbname /\ Dict.get k (_conns self) = Some c).
Proof.
  intros Hwf Hmax r Hret.
  assert (Hpopwf : Dict.wf (_conns (popped dbname self w)))
    by now apply popped_wf.
  assert (Hm : max_conns (popped dbname self w) = Some m).
  { unfold popped, swept; simpl.
    destruct (@prune_run _ _ _ self (snd (datetime_now w)) Hwf)
      as (s1 & w1 & E & _ & Hm & _).
    rewrite E. unfold pool_after; simpl. congruence. }
  (* the sweep and the pop *)
  destruct (@frames_prune _ _ _ (Some dbname) self (snd (datetime_now w)) Hwf)
    as (Hwf1 & Hkeep1 & Hold1 & Habs1).
  fold (fst (swept self w)) in Hwf1, Hkeep1, Hold1, Habs1.
  change (pool_after (prune_connections self (snd (datetime_now w))))
    with (fst (swept self w)) in *.
  (* the loop *)
  destruct (@frames_admission _ _ _ (Some dbname) fuel
              (effective_timeout timeout self) (started w)
              (popped dbname self w) (snd (swept self w)) Hpopwf)
    as (_ & Hkeep2 & Hold2 & Habs2).
  fold r in Hkeep2, Hold2, Habs2.
  split; [|split].
  - subst r. unfold admission_of in *. rewrite admission_eq, Hm in *.
    pose proof (@free_space_outcome _ _ _ fuel m
                  (effective_timeout timeout self) (started w)
                  (popped dbname self w) (snd (swept self w)) Hpopwf)
      as (Hout & _).
    cbv zeta in Hout. rewrite Hret in Hout. exact Hout.
  - intros k c Hne Hg Hc.
    apply Hkeep2; [congruence| |exact Hc].
    unfold popped; simpl. rewrite DictFacts.get_remove_other by assumption.
    apply Hkeep1; [congruence|exact Hg|exact Hc].
  - intros k c Hg.
    assert (Hne : k <> dbname).
    { intros ->. rewrite Habs2 in Hg; [discriminate|].
      now apply popped_absent. }
    split; [exact Hne|].
    apply Hold1; [congruence|].
    assert (H2 : Dict.get k (_conns (popped dbname self w)) = Some c)
      by (apply Hold2; [congruence|exact Hg]).
    unfold popped in H2; simpl in H2.
    now rewrite DictFacts.get_remove_other in H2.
Qed.

(** What the sweep that opens an acquire leaves of a record of the key. *)
Lemma found_after_sweep (dbname : string) (self : pool) (w : World) (c : Info) :
  Dict.wf (_conns self) ->
  Dict.get dbname (_conns self) = Some c ->
  found dbname self w
    = if prunable (fst (datetime_now (snd (datetime_now w)))) c
      then None else Some c.
Proof.
  intros Hwf Hg.
  unfold found, swept. cbn [fst].
  rewrite (prune_connections_eq self (snd (datetime_now w)) Hwf).
  unfold pool_after; simpl.
  rewrite (get_filter_cases _ _ Hwf Hg). simpl.
  now destruct (prunable (fst (datetime_now (snd (datetime_now w)))) c).
Qed.

(** The counters of the pool when the key has been popped. *)
Lemma popped_counters (dbname : string) (self : pool) (w : World) :
  Dict.wf (_conns self) ->
  let t := fst (datetime_now (snd (datetime_now w))) in
  connection_opened (_stats (popped dbname self w))
    = connection_opened (_stats self) /\
  connection_pruned (_stats (popped dbname self w))
    = connection_pruned (_stats self)
      + Z.of_nat (List.length
                    (filter (fun i => prunable t (snd i)) (_conns self))) /\
  max_conns (popped dbname self w) = max_conns self.
Proof.
  intros Hwf t. unfold popped, swept. cbn [fst].
  rewrite (prune_connections_eq self (snd (datetime_now w)) Hwf).
  unfold pool_after; simpl. auto.
Qed.

(** The run of an acquire that has to open a connection. *)
Lemma gated_acquire_counters
    (fuel : nat) (dbname : string) (ttl_ms : Z) (timeout : option Z)
    (startup_fn : option startup_hook) (persistent' : bool)
    (self : pool) (w : World) :
  Dict.wf (_conns self) ->
  must_open dbname self w = true ->
  let r := _get_connection_raw fuel dbname ttl_ms timeout startup_fn
             persistent' self w in
  connection_pruned (_stats (popped dbname self w))
    <= connection_pruned (_stats (pool_after r)) /\
  (outcome (admission_of fuel dbname timeout self w) = Return tt ->
   connection_opened (_stats (pool_after r))
     = connection_opened (_stats self) + 1).
Proof.
  intros Hwf Hopen r.
  assert (Hpopwf : Dict.wf (_conns (popped dbname self w)))
    by now apply popped_wf.
  destruct (popped_counters dbname self w Hwf) as (Hpop & _ & Hmax).
  destruct (get_connection_raw_outcome fuel dbname ttl_ms timeout startup_fn
              persistent' self w) as (_ & _ & Hst).
  fold r in Hst. rewrite Hst.
  rewrite obtain_connection_eq by assumption. rewrite Hopen.
  rewrite open_then_pair_eq.
  assert (Hgrow := counters_grow_open_connection fuel dbname
                     (effective_timeout timeout self) (started w) startup_fn
                     (popped dbname self w) (snd (swept self w)) Hpopwf).
  assert (Hadm : connection_opened
                   (_stats (pool_after
                      (admission fuel (effective_timeout timeout self)
                         (started w) (popped dbname self w)
                         (snd (swept self w)))))
                 = connection_opened (_stats self)).
  { rewrite admission_eq.
    destruct (max_conns (popped dbname self w)) as [m|].
    - pose proof (@free_space_outcome _ _ _ fuel m
                    (effective_timeout timeout self) (started w)
                    (popped dbname self w) (snd (swept self w)) Hpopwf)
        as (_ & _ & _ & Ho).
      cbv zeta in Ho. lia.
    - unfold pool_after; simpl. exact Hpop. }
  split.
  - destruct Hgrow as (_ & Hp & _). unfold pool_after in *.
    destruct (open_connection fuel dbname (effective_timeout timeout self)
                (started w) startup_fn (popped dbname self w)
                (snd (swept self w))) as [[[db|e|] s'] w']; simpl in *; exact Hp.
  - intros Hret. rewrite open_connection_eq.
    unfold admission_of, outcome, pool_after in *.
    destruct (admission fuel (effective_timeout timeout self) (started w)
                (popped dbname self w) (snd (swept self w)))
      as [[[u|e|] s2] w2]; simpl in *; try discriminate.
    destruct (connect_fn dbname w2) as [[db|e|] w3]; simpl; try lia.
    destruct startup_fn as [f|]; simpl; [|lia].
    destruct (f db w3) as [[u'|e|] w4]; simpl; lia.
Qed.

(** X16.  The time to live is honoured on reuse too: an acquire sweeps
    before it looks its key up, so it never reuses a record that is idle,
    not persistent and past its deadline at that sweep.  For such a record
    lines 101-126 do what they do for a key without a record, with the
    caller's [persistent] flag: the record is counted as pruned, and once
    admission control lets the acquire through a connection is counted as
    opened.  Any other record of the key whose connection is usable is
    handed over as it is, with its own flag, and nothing is opened. *)
Theorem expired_record_is_not_reused
    (fuel : nat) (dbname : string) (ttl_ms : Z) (timeout : option Z)
    (startup_fn : option startup_hook) (persistent' : bool)
    (self : pool) (w : World) (c : Info) :
  Dict.wf (_conns self) ->
  Dict.get dbname (_conns self) = Some c ->
  let t := fst (datetime_now (snd (datetime_now w))) in
  let r0 := obtain_connection fuel dbname timeout startup_fn persistent'
              self w in
  let r := _get_connection_raw fuel dbname ttl_ms timeout startup_fn
             persistent' self w in
  (active c = false -> persistent c = false -> deadline c < t ->
   r0 = match open_connection fuel dbname (effective_timeout timeout self)
                (started w) startup_fn (popped dbname self w)
                (snd (swept self w)) with
        | (Return db, s', w') => (Return (db, persistent'), s', w')
        | (Raise e, s', w') => (Raise e, s', w')
        | (OutOfFuel, s', w') => (OutOfFuel, s', w')
        end /\
   connection_pruned (_stats self) < connection_pruned (_stats (pool_after r)) /\
   (outcome (admission_of fuel dbname timeout self w) = Return tt ->
    connection_opened (_stats (pool_after r))
      = connection_opened (_stats self) + 1)) /\
  (prunable t c = false ->
   db_closed (connection c) (snd (swept self w))
   || db_broken (connection c) (snd (swept self w)) = false ->
   r0 = (Return (connection c, persistent c), popped dbname self w,
         snd (swept self w)) /\
   connection_opened (_stats (pool_after r)) = connection_opened (_stats self)).
Proof.
  intros Hwf Hg t r0 r.
  pose proof (found_after_sweep dbname self w c Hwf Hg) as Hfound.
  fold t in Hfound.
  split.
  - intros Ha Hp Hd.
    assert (Hpr : prunable t c = true) by (apply prunable_iff; auto).
    rewrite Hpr in Hfound.
    assert (Hopen : must_open dbname self w = true)
      by (unfold must_open; now rewrite Hfound).
    split; [|split].
    + subst r0. rewrite obtain_connection_eq by assumption. rewrite Hopen.
      apply open_then_pair_eq.
    + destruct (gated_acquire_counters fuel dbname ttl_ms timeout startup_fn
                  persistent' self w Hwf Hopen) as [Hle _].
      fold r in Hle.
      destruct (popped_counters dbname self w Hwf) as (_ & Hpruned & _).
      fold t in Hpruned.
      assert (Hin : In (dbname, c)
                      (filter (fun i => prunable t (snd i)) (_conns self))).
      { apply filter_In. split; [now apply DictFacts.get_In|exact Hpr]. }
      destruct (filter (fun i => prunable t (snd i)) (_conns self));
        [contradiction|]. simpl List.length in Hpruned. lia.
    + exact (proj2 (gated_acquire_counters fuel dbname ttl_ms timeout
                      startup_fn persistent' self w Hwf Hopen)).
  - intros Hpr Hus. rewrite Hpr in Hfound.
    assert (Hopen : must_open dbname self w = false)
      by (unfold must_open; now rewrite Hfound).
    assert (E0 : r0 = (Return (connection c, persistent c),
                       popped dbname self w, snd (swept self w))).
    { subst r0. rewrite obtain_connection_eq by assumption.
      now rewrite Hopen, Hfound. }
    split; [exact E0|].
    destruct (get_connection_raw_outcome fuel dbname ttl_ms timeout startup_fn
                persistent' self w) as (_ & _ & Hst).
    fold r r0 in Hst. rewrite Hst, E0. unfold pool_after; simpl fst; simpl snd.
    exact (proj1 (popped_counters dbname self w Hwf)).
Qed.

(** X17.  After [Stats.reset] the counters count from zero: across any
    sequence of sweeps, evictions, bulk closes and terminations that follows
    a reset, the closed and closed-failed counters add up to the number of
    records that have left the registry since, and the opened counter is
    still zero. *)
Theorem counters_after_reset
    (fuel : nat) (cs : list call) (self : pool) (w : World) :
  Dict.wf (_conns self) ->
  forallb closing cs = true ->
  let s' := fst (run_calls fuel cs (reset_stats self, w)) in
  connection_closed (_stats s') + connection_closed_failed (_stats s')
    = Z.of_nat (List.length (_conns self)) - Z.of_nat (List.length (_conns s')) /\
  connection_opened (_stats s') = 0.
Proof.
  intros Hwf Hcs s'.
  assert (Hwf0 : Dict.wf (_conns (reset_stats self))) by exact Hwf.
  split.
  - assert (H : closes_counted (reset_stats self) s').
    { subst s'. apply (keeps_closing_calls (@closes_counted Conn)); auto.
      - intros s. unfold closes_counted. lia.
      - intros a b c. unfold closes_counted. lia.
      - intros k s w' _. apply closes_counted_terminate.
      - intros s. unfold closes_counted. simpl. lia. }
    unfold closes_counted in H. simpl in H. lia.
  - assert (H : opens_nothing (reset_stats self) s').
    { subst s'. apply (keeps_closing_calls (@opens_nothing Conn)); auto.
      - intros s. reflexivity.
      - intros a b c. unfold opens_nothing. congruence.
      - intros k s w' _.
        destruct (terminate_cases k s w') as [[_ ->]|(c & _ & ->)];
          unfold opens_nothing, pool_after; simpl; [reflexivity|].
        now destruct (fst (db_close (connection c) w')).
      - intros s. reflexivity. }
    exact H.
Qed.

End Further.

(** ** Leases and the maximum *)

Section Leases.

Context {World Conn : Type} {env : Env World Conn}.

Local Abbreviation Info := (ConnectionInfo Conn).
Local Abbreviation pool := (Pool Conn).
Local Abbreviation M := (@M World Conn).





End Leases.

Set Implicit Arguments.

(** ** Runs in the simulated environment *)

Import Sim.

Lemma prune_connections_removes_iff_witness :
  Dict.wf (_conns (pool_of None registry5)) /\
  _conns (pool_after (prune_connections (pool_of None registry5)
                        (world_of 101 objects5)))
    = [("c", record 2 100 true 5 false);
       ("d", record 3 50 false 7 true);
       ("e", record 4 500 false 10 false)].
Proof.
  assert (Hwf : Dict.wf (_conns (pool_of None registry5))) by solve_wf.
  split; [exact Hwf|].
  destruct (prune_connections_removes_iff (pool_of None registry5)
              (world_of 101 objects5) Hwf) as (_ & _ & _ & H & _).
  rewrite H. reflexivity.
Defined.

(** C2 as stated fails at the deadline itself: an idle, non-persistent
    record whose deadline is the instant of the sweep is kept. *)
Lemma prune_keeps_record_at_its_deadline :
  let c := record 0 100 false 10 false in
  let self := pool_of None [("a", c)] in
  let w := world_of 100 [fresh] in
  Dict.get "a" (_conns self) = Some c /\
  ~ (Dict.get "a" (_conns (pool_after (prune_connections self w))) = None <->
     active c = false /\ persistent c = false /\
     fst (datetime_now w) >= deadline c).
Proof.
  cbv zeta. split; [reflexivity|].
  intros [_ H].
  assert (Hn : Dict.get "a"
                 (_conns (pool_after
                    (prune_connections (pool_of None [("a", record 0 100 false 10 false)])
                       (world_of 100 [fresh])))) = None).
  { apply H. simpl. repeat split. lia. }
  vm_compute in Hn. discriminate.
Qed.

Lemma evict_lru_removes_least_recently_used_witness :
  Dict.wf (_conns (pool_of None registry5)) /\
  outcome (evict_lru (pool_of None registry5) (world_of 100 objects5))
    = Return (Some "a").
Proof.
  assert (Hwf : Dict.wf (_conns (pool_of None registry5))) by solve_wf.
  split; [exact Hwf|].
  destruct (evict_lru_removes_least_recently_used (pool_of None registry5)
              (world_of 100 objects5) Hwf) as [[_ H]|_].
  - vm_compute in H. discriminate.
  - reflexivity.
Defined.

Lemma close_all_connections_closes_everything_witness :
  Dict.wf (_conns (pool_of None registry5)) /\
  outcome (close_all_connections (pool_of None registry5)
             (world_of 100 objects5')) = Return false /\
  _conns (pool_after (close_all_connections (pool_of None registry5)
                        (world_of 100 objects5'))) = [].
Proof.
  assert (Hwf : Dict.wf (_conns (pool_of None registry5))) by solve_wf.
  split; [exact Hwf|].
  destruct (close_all_connections_closes_everything (pool_of None registry5)
              (world_of 100 objects5') Hwf)
    as (success & Ho & _ & Hc & _).
  split; [reflexivity|exact Hc].
Defined.

Lemma get_connection_never_yields_witness :
  Dict.wf (_conns (pool_of (Some 2) registry5)) /\
  with_get_connection 5 "a" 1000 None false
      (fun db => ret db) (pool_of (Some 2) registry5) (world_of 100 objects5)
    = (Raise (NameError "startup_fn"), pool_of (Some 2) registry5,
       world_of 100 objects5) /\
  Dict.get "a"
    (_conns (pool_after (_get_connection_raw 5 "a" 1000 None None false
                           (pool_of (Some 2) registry5)
                           (world_of 100 objects5)))) = None.
Proof.
  assert (Hwf : Dict.wf (_conns (pool_of (Some 2) registry5))) by solve_wf.
  split; [exact Hwf|].
  destruct (get_connection_never_yields 5 "a" 1000 None false
              (pool_of (Some 2) registry5) (world_of 100 objects5))
    as (_ & Hwith & _ & _ & _ & Hgone).
  split; [apply Hwith|apply Hgone; exact Hwf].
Defined.

Lemma admission_fails_only_when_timed_out_witness :
  Dict.wf (_conns busy1) /\
  _get_connection_raw 200 "z" 1000 (Some 1) None false busy1 (world_of 100 [fresh])
    = (Raise (ConnectionPoolFullError 1 1), busy1,
       world_of 1010100 [fresh]).
Proof.
  assert (Hwf : Dict.wf (_conns busy1)) by solve_wf.
  split; [exact Hwf|].
  destruct (admission_fails_only_when_timed_out 200 "z" (Some 1) busy1
              (world_of 100 [fresh]) Hwf) as (_ & _ & H & _).
  rewrite (H (ConnectionPoolFullError 1 1) 1000 None false);
    vm_compute; reflexivity.
Defined.

(** C4 as stated fails: at capacity an acquire can fail with another
    error than the pool-full one, here the factory's, well within the
    timeout; and a timeout of [0] is not the timeout in force. *)
Lemma acquire_at_capacity_fails_otherwise :
  let r := _get_connection_raw 5 "a" 1000 (Some 1) None false idle1 world_idle1 in
  max_conns idle1 = Some 1 /\
  must_open "a" idle1 world_idle1 = true /\
  Z.of_nat (List.length (_conns (popped "a" idle1 world_idle1))) >= 1 /\
  outcome r = Raise (OtherError 1) /\
  (forall m t, outcome r <> Raise (ConnectionPoolFullError m t)) /\
  clock (world_after r) - started world_idle1 <= seconds 1 /\
  _get_connection_raw 600 "z" 1000 (Some 0) None false busy1 (world_of 100 [fresh])
    = (Raise (ConnectionPoolFullError 1 5), busy1, world_of 5010100 [fresh]).
Proof.
  cbv zeta. repeat split; try (vm_compute; congruence).
Qed.

Lemma persistent_records_are_immune_witness :
  Dict.wf (_conns (pool_of (Some 2) registry5)) /\
  Dict.get "d"
    (_conns (fst (run_ops 3
                    [Acquire "z" 1000 (Some 1) None false; Prune; Evict;
                     Acquire "a" 1000 None None false; Evict]
                    (pool_of (Some 2) registry5, world_of 100 objects5))))
    = Some (record 3 50 false 7 true).
Proof.
  assert (Hwf : Dict.wf (_conns (pool_of (Some 2) registry5))) by solve_wf.
  split; [exact Hwf|].
  destruct (persistent_records_are_immune (pool_of (Some 2) registry5)
              (world_of 100 objects5) Hwf) as (_ & _ & _ & _ & H).
  apply H; [reflexivity|reflexivity|].
  simpl. intuition discriminate.
Defined.

Lemma failed_open_leaves_no_record_witness :
  Dict.wf (_conns stale_a) /\
  must_open "a" stale_a world_stale_a = true /\
  outcome (_get_connection_raw 1 "a" 1000 None None false stale_a world_stale_a)
    = Raise (OtherError 1) /\
  Dict.get "a"
    (_conns (pool_after (_get_connection_raw 1 "a" 1000 None None false
                           stale_a world_stale_a))) = None.
Proof.
  assert (Hwf : Dict.wf (_conns stale_a)) by solve_wf.
  assert (Hopen : must_open "a" stale_a world_stale_a = true) by reflexivity.
  split; [exact Hwf|]. split; [exact Hopen|].
  assert (Hfail :
    connect_fn "a" (world_after (admission_of 1 "a" None stale_a world_stale_a))
      = (Raise (OtherError 1),
         mkWorld 100 [mkConnState true false false; mkConnState true false false]
           ["a"])) by reflexivity.
  destruct (@failed_open_leaves_no_record _ _ _ 1 "a" 1000 None None false
              stale_a world_stale_a _ (OtherError 1)
              Hwf Hopen eq_refl (or_introl Hfail)) as (Hr & Hgone & _).
  split; [now rewrite Hr|exact Hgone].
Defined.

(** C10 as stated fails: the acquire sweeps before it pops, so a failed
    open can leave other entries removed and other counters advanced. *)
Lemma failed_open_changes_other_entries :
  let r := _get_connection_raw 1 "a" 1000 None None false stale_a world_stale_a in
  outcome r = Raise (OtherError 1) /\
  Dict.get "b" (_conns stale_a) = Some (record 0 50 false 10 false) /\
  ~ ((forall k, k <> "a" ->
        Dict.get k (_conns (pool_after r)) = Dict.get k (_conns stale_a)) /\
     connection_pruned (_stats (pool_after r))
       = connection_pruned (_stats stale_a) /\
     connection_closed (_stats (pool_after r))
       = connection_closed (_stats stale_a)).
Proof.
  cbv zeta. split; [reflexivity|]. split; [reflexivity|].
  intros (_ & H & _). vm_compute in H. discriminate.
Qed.



(** C7 fails on the code: an acquire that finds a usable record for its key
    raises and leaves the registry without the record; the connection stays
    open. *)
Lemma reuse_loses_the_record :
  let self := pool_of None [("a", record 0 1000 false 10 false)] in
  let w := world_of 100 [fresh] in
  let r := _get_connection_raw 1 "a" 1000 None None true self w in
  must_open "a" self w = false /\
  outcome r = Raise missing_thread /\
  Dict.get "a" (_conns (pool_after r)) = None /\
  objects (world_after r) = [fresh].
Proof. cbv zeta. repeat split. Qed.

(** *** The further properties at work *)

Lemma terminate_twice_witness :
  Dict.wf (_conns (pool_of None registry5)) /\
  Dict.get "b"
    (_conns (pool_after (_terminate_connection_unsafe "b"
                           (pool_of None registry5) (world_of 100 objects5'))))
    = None.
Proof.
  assert (Hwf : Dict.wf (_conns (pool_of None registry5))) by solve_wf.
  split; [exact Hwf|].
  exact (proj1 (terminate_twice "b" (pool_of None registry5)
                  (world_of 100 objects5') Hwf)).
Defined.

Lemma closing_calls_count_every_removal_witness :
  Dict.wf (_conns (pool_of None registry5)) /\
  closes_counted (pool_of None registry5)
    (fst (run_calls 1 [CallPrune; CallEvict; CallTerminate "c"; CallCloseAll]
            (pool_of None registry5, world_of 101 objects5'))).
Proof.
  assert (Hwf : Dict.wf (_conns (pool_of None registry5))) by solve_wf.
  split; [exact Hwf|].
  exact (closing_calls_count_every_removal 1
           [CallPrune; CallEvict; CallTerminate "c"; CallCloseAll]
           (pool_of None registry5) (world_of 101 objects5') Hwf eq_refl).
Defined.

Lemma counters_never_decrease_witness :
  Dict.wf (_conns (pool_of (Some 2) registry5)) /\
  counters_grow (pool_of (Some 2) registry5)
    (fst (run_calls 3
            [CallAcquire "z" 1000 (Some 1) None false;
             CallRelease "c" 2%nat BodyCompleted; CallPrune; CallCloseAll]
            (pool_of (Some 2) registry5, world_of 101 objects5'))).
Proof.
  assert (Hwf : Dict.wf (_conns (pool_of (Some 2) registry5))) by solve_wf.
  split; [exact Hwf|].
  exact (counters_never_decrease 3
           [CallAcquire "z" 1000 (Some 1) None false;
            CallRelease "c" 2%nat BodyCompleted; CallPrune; CallCloseAll]
           (pool_of (Some 2) registry5) (world_of 101 objects5') Hwf).
Defined.

Lemma every_failed_close_is_logged_witness :
  Dict.wf (_conns (pool_of (Some 2) registry5)) /\
  failures_logged (pool_of (Some 2) registry5)
    (fst (run_calls 3
            [CallAcquire "z" 1000 (Some 1) None false; CallPrune; CallCloseAll]
            (pool_of (Some 2) registry5, world_of 101 objects5'))).
Proof.
  assert (Hwf : Dict.wf (_conns (pool_of (Some 2) registry5))) by solve_wf.
  split; [exact Hwf|].
  exact (every_failed_close_is_logged 3
           [CallAcquire "z" 1000 (Some 1) None false; CallPrune; CallCloseAll]
           (pool_of (Some 2) registry5) (world_of 101 objects5') Hwf).
Defined.

Lemma no_call_makes_a_record_witness :
  Dict.wf (_conns (pool_of (Some 2) registry5)) /\
  no_record_made (pool_of (Some 2) registry5)
    (fst (run_calls 3
            [CallAcquire "z" 1000 (Some 1) None false;
             CallRelease "c" 2%nat BodyCompleted; CallEvict]
            (pool_of (Some 2) registry5, world_of 100 objects5))).
Proof.
  assert (Hwf : Dict.wf (_conns (pool_of (Some 2) registry5))) by solve_wf.
  split; [exact Hwf|].
  exact (no_call_makes_a_record 3
           [CallAcquire "z" 1000 (Some 1) None false;
            CallRelease "c" 2%nat BodyCompleted; CallEvict]
           (pool_of (Some 2) registry5) (world_of 100 objects5) Hwf).
Defined.

Lemma prune_again_removes_nothing_witness :
  Dict.wf (_conns (pool_of None registry5)) /\
  outcome
    (prune_connections
       (pool_after (prune_connections (pool_of None registry5)
                      (world_of 101 objects5)))
       (world_after (prune_connections (pool_of None registry5)
                       (world_of 101 objects5))))
    = Return tt.
Proof.
  assert (Hwf : Dict.wf (_conns (pool_of None registry5))) by solve_wf.
  split; [exact Hwf|].
  rewrite (prune_again_removes_nothing (pool_of None registry5)
             (world_of 101 objects5) Hwf); [reflexivity|].
  simpl. lia.
Defined.

Lemma evictions_in_lru_order_witness :
  Dict.wf (_conns (pool_of None registry5)) /\
  exists c1 c2,
    Dict.get "a" (_conns (pool_of None registry5)) = Some c1 /\
    Dict.get "e" (_conns (pool_of None registry5)) = Some c2 /\
    last_accessed c1 <= last_accessed c2.
Proof.
  assert (Hwf : Dict.wf (_conns (pool_of None registry5))) by solve_wf.
  split; [exact Hwf|].
  assert (E1 : outcome (evict_lru (pool_of None registry5)
                          (world_of 100 objects5)) = Return (Some "a"))
    by reflexivity.
  assert (E2 : outcome
                 (evict_lru
                    (pool_after (evict_lru (pool_of None registry5)
                                   (world_of 100 objects5)))
                    (world_after (evict_lru (pool_of None registry5)
                                    (world_of 100 objects5))))
               = Return (Some "e")) by reflexivity.
  destruct (evictions_in_lru_order (pool_of None registry5)
              (world_of 100 objects5) "a" "e" Hwf E1 E2)
    as (c1 & c2 & H1 & H2 & _ & Hle & _).
  exists c1, c2. auto.
Defined.

Lemma close_all_twice_witness :
  Dict.wf (_conns (pool_of None registry5)) /\
  outcome (close_all_connections (pool_of None registry5)
             (world_of 100 objects5')) = Return false /\
  outcome
    (close_all_connections
       (pool_after (close_all_connections (pool_of None registry5)
                      (world_of 100 objects5')))
       (world_after (close_all_connections (pool_of None registry5)
                       (world_of 100 objects5'))))
    = Return true.
Proof.
  assert (Hwf : Dict.wf (_conns (pool_of None registry5))) by solve_wf.
  split; [exact Hwf|]. split; [reflexivity|].
  now rewrite (proj1 (close_all_twice (pool_of None registry5)
                        (world_of 100 objects5') Hwf)).
Defined.

Lemma release_marks_idle_witness :
  db_broken 2%nat (world_of 100 objects5) = false /\
  Dict.get "c"
    (_conns (pool_after (get_connection_exit "c" 2%nat BodyCompleted
                           (pool_of None registry5) (world_of 100 objects5))))
    = Some (record 2 100 false 5 false).
Proof.
  assert (Hb : db_broken 2%nat (world_of 100 objects5) = false) by reflexivity.
  split; [exact Hb|].
  destruct (release_marks_idle "c" 2%nat (pool_of None registry5)
              (world_of 100 objects5) Hb) as (_ & _ & _ & _ & _ & _ & H).
  exact H.
Defined.

Lemma release_removes_unusable_witness :
  Dict.wf (_conns (pool_of None registry5)) /\
  outcome (get_connection_exit "c" 2%nat (BodyRaised InterruptedError)
             (pool_of None registry5) (world_of 100 objects5))
    = Raise InterruptedError /\
  Dict.get "c"
    (_conns (pool_after (get_connection_exit "c" 2%nat
                           (BodyRaised InterruptedError)
                           (pool_of None registry5) (world_of 100 objects5))))
    = None.
Proof.
  assert (Hwf : Dict.wf (_conns (pool_of None registry5))) by solve_wf.
  split; [exact Hwf|].
  destruct (release_removes_unusable "c" 2%nat (BodyRaised InterruptedError)
              (pool_of None registry5) (world_of 100 objects5) Hwf
              (or_introl eq_refl)) as (Ho & Hgone & _).
  split; [exact Ho|exact Hgone].
Defined.

Lemma busy_records_survive_witness :
  Dict.wf (_conns (pool_of (Some 2) registry5)) /\
  Dict.get "c"
    (_conns (fst (run_ops 3
                    [Acquire "z" 1000 (Some 1) None false; Prune; Evict;
                     Acquire "a" 1000 None None false; Evict]
                    (pool_of (Some 2) registry5, world_of 101 objects5))))
    = Some (record 2 100 true 5 false).
Proof.
  assert (Hwf : Dict.wf (_conns (pool_of (Some 2) registry5))) by solve_wf.
  split; [exact Hwf|].
  apply (busy_records_survive 3 _ (pool_of (Some 2) registry5)
           (world_of 101 objects5) "c" (record 2 100 true 5 false) Hwf);
    [reflexivity|reflexivity|].
  simpl. intuition discriminate.
Defined.

Lemma full_pool_in_use_never_admits_witness :
  Dict.wf (_conns busy1) /\
  outcome (free_space 3 1 None 100 busy1 (world_of 100 [fresh])) = OutOfFuel.
Proof.
  assert (Hwf : Dict.wf (_conns busy1)) by solve_wf.
  split; [exact Hwf|].
  assert (Hall : forall item, In item (_conns busy1) ->
                   guarded (snd item) = true).
  { simpl. intros item [<-|[]]. reflexivity. }
  assert (Hfull : Z.of_nat (List.length (_conns busy1)) >= 1)
    by (simpl; lia).
  destruct (full_pool_in_use_never_admits 1 None 100 busy1 3
              (world_of 100 [fresh]) Hwf Hall Hfull) as (_ & _ & H).
  now apply H.
Defined.

Lemma one_pass_frees_a_slot_witness :
  Dict.wf (_conns idle1) /\
  outcome (free_space 1 1 (Some 5) 100 idle1 world_idle1) = Return tt.
Proof.
  assert (Hwf : Dict.wf (_conns idle1)) by solve_wf.
  split; [exact Hwf|].
  destruct (one_pass_frees_a_slot idle1 world_idle1 "b"
              (record 0 1000 false 10 false) Hwf eq_refl eq_refl eq_refl)
    as (_ & H).
  change (free_space 1 1 (Some 5) 100 idle1 world_idle1)
    with (free_space 1 (Z.of_nat (List.length (_conns idle1))) (Some 5) 100
            idle1 world_idle1).
  now rewrite (H O (Some 5) 100 eq_refl).
Defined.

Lemma acquire_counts_one_opening_witness :
  Dict.wf (_conns idle1) /\
  connection_opened
    (_stats (pool_after (_get_connection_raw 2 "a" 1000 (Some 1) None false
                           idle1 world_idle1))) = 1.
Proof.
  assert (Hwf : Dict.wf (_conns idle1)) by solve_wf.
  split; [exact Hwf|].
  now rewrite (acquire_counts_one_opening 2 "a" 1000 (Some 1) None false
                 idle1 world_idle1 Hwf).
Defined.

Lemma admission_leaves_room_witness :
  Dict.wf (_conns idle1) /\
  Z.of_nat (List.length
              (_conns (pool_after
                         (admission_of 2 "a" (Some 1) idle1 world_idle1)))) < 1.
Proof.
  assert (Hwf : Dict.wf (_conns idle1)) by solve_wf.
  split; [exact Hwf|].
  exact (proj1 (admission_leaves_room 2 "a" (Some 1) 1 idle1 world_idle1
                  Hwf eq_refl eq_refl)).
Defined.

Lemma expired_record_is_not_reused_witness :
  Dict.wf (_conns stale_a) /\
  Dict.get "b" (_conns stale_a) = Some (record 0 50 false 10 false) /\
  connection_pruned (_stats stale_a)
    < connection_pruned
        (_stats (pool_after (_get_connection_raw 1 "b" 1000 None None true
                               stale_a world_stale_a))) /\
  connection_opened
    (_stats (pool_after (_get_connection_raw 1 "b" 1000 None None true
                           stale_a world_stale_a)))
    = connection_opened (_stats stale_a) + 1.
Proof.
  assert (Hwf : Dict.wf (_conns stale_a)) by solve_wf.
  assert (Hg : Dict.get "b" (_conns stale_a)
               = Some (record 0 50 false 10 false)) by reflexivity.
  split; [exact Hwf|]. split; [exact Hg|].
  destruct (expired_record_is_not_reused 1 "b" 1000 None None true
              stale_a world_stale_a (record 0 50 false 10 false) Hwf Hg)
    as [H _].
  destruct (H eq_refl eq_refl eq_refl) as (_ & Hpruned & Hopened).
  split; [exact Hpruned|]. apply Hopened. reflexivity.
Defined.

Lemma counters_after_reset_witness :
  Dict.wf (_conns (pool_of None registry5)) /\
  connection_closed
    (_stats (fst (run_calls 1 [CallPrune; CallEvict]
                    (reset_stats (pool_of None registry5),
                     world_of 101 objects5'))))
  + connection_closed_failed
      (_stats (fst (run_calls 1 [CallPrune; CallEvict]
                      (reset_stats (pool_of None registry5),
                       world_of 101 objects5'))))
  = 3.
Proof.
  assert (Hwf : Dict.wf (_conns (pool_of None registry5))) by solve_wf.
  split; [exact Hwf|].
  now rewrite (proj1 (counters_after_reset 1 [CallPrune; CallEvict]
                        (pool_of None registry5) (world_of 101 objects5')
                        Hwf eq_refl)).
Defined.
